(** * Usage reservation and tiered billing: [reserve_feature.lua]

    A shallow embedding of the Redis script
    [src/app/scripts/redis/reserve_feature.lua] and the properties of its
    tiered cost calculator and of its reservation sequence.

    Conventions of the embedding.
    - Lua numbers that hold amounts (usage, balances, rates, costs) are exact
      rationals, [Qc]: the arithmetic of the script is modelled without
      rounding, and [unit_count] is taken non-zero wherever a quotient is
      read.  The two non-finite values the script can form itself,
      [math.huge] and the difference of two of them, are kept in [number].
    - The Redis hash addressed by [KEYS[1]] is a [gmap string Qc]; the Lua
      table [reserved_from_entitlements] is a [gmap string Qc] as well.
    - The calculator is given a second time on binary64 floats
      ([calculate_tiered_cost64]), the numbers the script computes with;
      what depends on rounding is settled there.
    - [table.sort] is a library routine: the calculator takes it as the
      parameter [table_sort], and the theorems that depend on the order ask
      for what the Lua manual promises of it (a permutation, in the order of
      the comparator).  [insertion_sort] is one such routine. *)

From Stdlib Require Import QArith Qcanon Lqa ZArith Sorted Permutation.
From Stdlib Require Import Ascii String DecimalString.
From Stdlib Require Import Floats.PrimFloat.
From stdpp Require Import gmap strings list fin_maps numbers.

Local Open Scope Qc_scope.

(** ** Numbers *)

(** A Lua number as the calculator meets it: a finite amount, [math.huge],
    its opposite, or the undefined difference [math.huge - math.huge]. *)
Inductive number :=
  | Fin (q : Qc)
  | PosInf
  | NegInf
  | NaN.

(** [a - b] *)
Definition num_sub (a b : number) : number :=
  match a, b with
  | Fin x, Fin y => Fin (x - y)
  | Fin _, PosInf => NegInf
  | Fin _, NegInf => PosInf
  | PosInf, Fin _ => PosInf
  | PosInf, NegInf => PosInf
  | NegInf, Fin _ => NegInf
  | NegInf, PosInf => NegInf
  | PosInf, PosInf => NaN
  | NegInf, NegInf => NaN
  | NaN, _ => NaN
  | _, NaN => NaN
  end.

(** [a < b]; every comparison with the undefined value is false. *)
Definition num_ltb (a b : number) : bool :=
  match a, b with
  | Fin x, Fin y => bool_decide (x < y)
  | Fin _, PosInf => true
  | NegInf, Fin _ => true
  | NegInf, PosInf => true
  | _, _ => false
  end.

(** [math.min(x, d)]: the library starts from [x] and replaces it when
    [d < x]. *)
Definition math_min (x d : number) : number :=
  if num_ltb d x then d else x.

(** [math.min] on two finite amounts, as in the entitlement loop. *)
Definition Qc_min (x y : Qc) : Qc :=
  if bool_decide (y < x) then y else x.

(** ** Tiers *)

(** One element of the decoded [tiers] array.  [up_to = None] is a JSON
    [null] (or an absent field). *)
Record tier := Tier { up_to : option Qc; amount : Qc }.

(** [tier.up_to and tonumber(tier.up_to) or math.huge] *)
Definition tier_up_to (t : tier) : number :=
  match up_to t with
  | Some q => Fin q
  | None => PosInf
  end.

(** The comparator handed to [table.sort]. *)
Definition tier_before (a b : tier) : bool :=
  num_ltb (tier_up_to a) (tier_up_to b).

(** A sorting routine in the sense of the Lua manual, for the comparator
    [lt]: the result holds the same elements, and no later element is
    strictly before an earlier one. *)
Definition sorts_with {A} (lt : A -> A -> bool)
    (sort : (A -> A -> bool) -> list A -> list A) : Prop :=
  forall l,
    Permutation (sort lt l) l /\
    StronglySorted (fun a b => lt b a = false) (sort lt l).

Fixpoint insert_sorted {A} (lt : A -> A -> bool) (x : A) (l : list A) : list A :=
  match l with
  | [] => [x]
  | y :: l' => if lt y x then y :: insert_sorted lt x l' else x :: l
  end.

(** A reference sorting routine. *)
Fixpoint insertion_sort {A} (lt : A -> A -> bool) (l : list A) : list A :=
  match l with
  | [] => []
  | x :: l' => insert_sorted lt x (insertion_sort lt l')
  end.

(** ** The tiered cost calculator *)

(** The three locals of [calculate_tiered_cost] that the loop updates. *)
Record walk_state := WalkState {
  remaining_usage : Qc;
  total_cost : Qc;
  previous_up_to : number
}.

Section Calculator.

Variable table_sort : (tier -> tier -> bool) -> list tier -> list tier.

(** The body of [for _, tier in ipairs(tiers) do ... end], lines 24-41.
    [usage_in_tier] is finite or [NegInf] (lemma [math_min_fin]), so the
    branch [usage_in_tier > 0] is taken on a finite amount only. *)
Fixpoint tier_walk (unit_count : Qc) (tiers : list tier) (st : walk_state)
    : walk_state :=
  match tiers with
  | [] => st
  | t :: rest =>
      let tier_amount := amount t in
      if bool_decide (remaining_usage st <= 0) then st
      else
        let usage_in_tier :=
          math_min (Fin (remaining_usage st))
                   (num_sub (tier_up_to t) (previous_up_to st)) in
        let st1 :=
          match usage_in_tier with
          | Fin u =>
              if bool_decide (0 < u) then
                {| remaining_usage := remaining_usage st - u;
                   total_cost := total_cost st + (u / unit_count) * tier_amount;
                   previous_up_to := previous_up_to st |}
              else st
          | _ => st
          end in
        tier_walk unit_count rest
          {| remaining_usage := remaining_usage st1;
             total_cost := total_cost st1;
             previous_up_to := tier_up_to t |}
  end.

(** The state the walk starts from, lines 13-15. *)
Definition walk_init (usage : Qc) : walk_state :=
  {| remaining_usage := usage; total_cost := 0; previous_up_to := Fin 0 |}.

(** [calculate_tiered_cost(usage, tiers, unit_count)], lines 12-50. *)
Definition calculate_tiered_cost (usage : Qc) (tiers : list tier)
    (unit_count : Qc) : Qc :=
  let sorted := table_sort tier_before tiers in
  let st := tier_walk unit_count sorted (walk_init usage) in
  if bool_decide (0 < remaining_usage st) && bool_decide (0 < length sorted)%nat then
    match sorted !! (length sorted - 1)%nat with
    | Some last_tier =>
        total_cost st + (remaining_usage st / unit_count) * amount last_tier
    | None => total_cost st
    end
  else total_cost st.

End Calculator.

(** One turn of the loop of [tier_walk] past its [break] test, with
    [math.min] resolved by the shape of the difference of the bounds. *)
Definition walk_turn (unit_count : Qc) (st : walk_state) (t : tier) : walk_state :=
  match num_sub (tier_up_to t) (previous_up_to st) with
  | Fin w =>
      if bool_decide (0 < Qc_min (remaining_usage st) w) then
        {| remaining_usage := remaining_usage st - Qc_min (remaining_usage st) w;
           total_cost := total_cost st
             + Qc_min (remaining_usage st) w / unit_count * amount t;
           previous_up_to := tier_up_to t |}
      else
        {| remaining_usage := remaining_usage st; total_cost := total_cost st;
           previous_up_to := tier_up_to t |}
  | NegInf =>
      {| remaining_usage := remaining_usage st; total_cost := total_cost st;
         previous_up_to := tier_up_to t |}
  | PosInf | NaN =>
      if bool_decide (0 < remaining_usage st) then
        {| remaining_usage := remaining_usage st - remaining_usage st;
           total_cost := total_cost st
             + remaining_usage st / unit_count * amount t;
           previous_up_to := tier_up_to t |}
      else
        {| remaining_usage := remaining_usage st; total_cost := total_cost st;
           previous_up_to := tier_up_to t |}
  end.


(** Lines 43-47 when [tiers] is not empty: the remainder, if any, at the
    rate [last_tier_amount]. *)
Definition fallback_total (unit_count last_tier_amount : Qc) (st : walk_state) : Qc :=
  if bool_decide (0 < remaining_usage st) then
    total_cost st + (remaining_usage st / unit_count) * last_tier_amount
  else total_cost st.

(** A schedule whose highest tier is bounded. *)
Definition capped_tiers : list tier :=
  [ Tier (Some (Q2Qc 1000)) (Q2Qc (1 # 100)) ].

(** A one-tier schedule with a negative rate. *)
Definition rebate_tiers : list tier := [ Tier None (Q2Qc (-1)) ].

(** ** The calculator on binary64 numbers

    The same function, lines 12-50, with every number a binary64 float and
    every operation the IEEE one, as the Lua interpreter of Redis runs it:
    [tonumber] of a decimal string is the nearest float (the literals below),
    [math.huge] is [infinity], a comparison with a NaN is false. *)

Record tier64 := Tier64 { up_to64 : option float; amount64 : float }.

(** [tier.up_to and tonumber(tier.up_to) or math.huge] *)
Definition tier_up_to64 (t : tier64) : float :=
  match up_to64 t with
  | Some q => q
  | None => infinity
  end.

(** The comparator handed to [table.sort]. *)
Definition tier_before64 (a b : tier64) : bool :=
  PrimFloat.ltb (tier_up_to64 a) (tier_up_to64 b).

(** [math.min(x, d)] *)
Definition math_min64 (x d : float) : float :=
  if PrimFloat.ltb d x then d else x.

Record walk_state64 := WalkState64 {
  remaining_usage64 : float;
  total_cost64 : float;
  previous_up_to64 : float
}.

(** The loop of lines 24-41. *)
Fixpoint tier_walk64 (unit_count : float) (tiers : list tier64)
    (st : walk_state64) : walk_state64 :=
  match tiers with
  | [] => st
  | t :: rest =>
      let tier_amount := amount64 t in
      if PrimFloat.leb (remaining_usage64 st) 0%float then st
      else
        let usage_in_tier :=
          math_min64 (remaining_usage64 st)
                     (tier_up_to64 t - previous_up_to64 st)%float in
        let st1 :=
          if PrimFloat.ltb 0%float usage_in_tier then
            {| remaining_usage64 := (remaining_usage64 st - usage_in_tier)%float;
               total_cost64 :=
                 (total_cost64 st + (usage_in_tier / unit_count) * tier_amount)%float;
               previous_up_to64 := previous_up_to64 st |}
          else st in
        tier_walk64 unit_count rest
          {| remaining_usage64 := remaining_usage64 st1;
             total_cost64 := total_cost64 st1;
             previous_up_to64 := tier_up_to64 t |}
  end.

Definition walk_init64 (usage : float) : walk_state64 :=
  {| remaining_usage64 := usage; total_cost64 := 0%float;
     previous_up_to64 := 0%float |}.

(** [calculate_tiered_cost(usage, tiers, unit_count)], lines 12-50. *)
Definition calculate_tiered_cost64
    (table_sort : (tier64 -> tier64 -> bool) -> list tier64 -> list tier64)
    (usage : float) (tiers : list tier64) (unit_count : float) : float :=
  let sorted := table_sort tier_before64 tiers in
  let st := tier_walk64 unit_count sorted (walk_init64 usage) in
  if PrimFloat.ltb 0%float (remaining_usage64 st)
     && bool_decide (0 < length sorted)%nat then
    match sorted !! (length sorted - 1)%nat with
    | Some last_tier =>
        (total_cost64 st
         + (remaining_usage64 st / unit_count) * amount64 last_tier)%float
    | None => total_cost64 st
    end
  else total_cost64 st.

#[local] Set Warnings "-inexact-float".

(** Three tiers at rate 1 up to 0.1, 0.2 and 0.4, then rate 1000000000. *)
Definition decimal_tiers : list tier64 :=
  [ Tier64 (Some 0.1%float) 1%float; Tier64 (Some 0.2%float) 1%float;
    Tier64 (Some 0.4%float) 1%float; Tier64 None 1000000000%float ].

(** The three bounded tiers of [decimal_tiers]. *)
Definition decimal_tiers_lower : list tier64 :=
  [ Tier64 (Some 0.1%float) 1%float; Tier64 (Some 0.2%float) 1%float;
    Tier64 (Some 0.4%float) 1%float ].

(** The usage 0.4, the bound of the third tier. *)
Definition decimal_usage : float := 0.4%float.

(** The schedule of the 1500-unit scenario. *)
Definition c1_tiers64 : list tier64 :=
  [ Tier64 (Some 1000%float) 0.01%float; Tier64 None 0.008%float ].

#[local] Set Warnings "inexact-float".

(** ** The calculator in the words of the specification

    Section 4.2 of the specification, steps 1 to 3, written independently of
    the code: the walk is a fold over the sorted tiers whose step leaves the
    state alone once [remaining_usage <= 0]; an absent upper bound is
    positive infinity. *)

Record spec_state := SpecState {
  spec_previous_bound : option Qc;   (* [None]: positive infinity *)
  spec_remaining_usage : Qc;
  spec_cost : Qc
}.

(** [slice = min(remaining_usage, tier.upper_bound - previous_bound)].  The
    specification gives no value to a difference whose [previous_bound] is
    infinite; no slice is taken there. *)
Definition spec_slice (remaining : Qc) (upper previous : option Qc) : Qc :=
  match upper, previous with
  | Some ub, Some pb => Qc_min remaining (ub - pb)
  | None, Some _ => remaining
  | _, None => 0
  end.

Definition spec_step (unit_count : Qc) (st : spec_state) (t : tier) : spec_state :=
  if bool_decide (spec_remaining_usage st <= 0) then st
  else
    let slice := spec_slice (spec_remaining_usage st) (up_to t) (spec_previous_bound st) in
    if bool_decide (0 < slice) then
      {| spec_previous_bound := up_to t;
         spec_remaining_usage := spec_remaining_usage st - slice;
         spec_cost := spec_cost st + (slice / unit_count) * amount t |}
    else
      {| spec_previous_bound := up_to t;
         spec_remaining_usage := spec_remaining_usage st;
         spec_cost := spec_cost st |}.

Definition spec_walk (unit_count : Qc) (sorted : list tier) (usage : Qc) : spec_state :=
  fold_left (spec_step unit_count) sorted
    {| spec_previous_bound := Some 0; spec_remaining_usage := usage; spec_cost := 0 |}.

Definition spec_tiered_cost
    (table_sort : (tier -> tier -> bool) -> list tier -> list tier)
    (usage : Qc) (tiers : list tier) (unit_count : Qc) : Qc :=
  match tiers with
  | [] => 0
  | _ :: _ =>
      let sorted := table_sort tier_before tiers in
      let st := spec_walk unit_count sorted usage in
      if bool_decide (0 < spec_remaining_usage st) then
        spec_cost st
        + (spec_remaining_usage st / unit_count) * List.last (map amount sorted) 0
      else spec_cost st
  end.

(** ** The ledger *)

(** [HINCRBYFLOAT key field delta]: a missing field counts as zero. *)
Definition hincrbyfloat (field : string) (delta : Qc) (ledger : gmap string Qc)
    : gmap string Qc :=
  <[field := default 0 (ledger !! field) + delta]> ledger.

(** ['entitlement:' .. ent_id] *)
Definition ent_key (ent_id : string) : string := "entitlement:" +:+ ent_id.

(** [tonumber(ledger_map[field] or '0')] *)
Definition balance_of (ledger_map : gmap string Qc) (field : string) : Qc :=
  default 0 (ledger_map !! field).

(** Lines 60-64: the flat reply of [HGETALL] (a field, its value, the next
    field, ...) is copied into a table, pair by pair, a later pair replacing
    an earlier one for the same field.  A last field with nothing after it
    is assigned [nil], which removes its entry. *)
Fixpoint ledger_map_of (reply : list string) (ledger_map : gmap string string)
    : gmap string string :=
  match reply with
  | [] => ledger_map
  | [field] => delete field ledger_map
  | field :: value :: rest => ledger_map_of rest (<[field := value]> ledger_map)
  end.

(** The reply that lists the given field/value pairs. *)
Definition flat_reply (pairs : list (string * string)) : list string :=
  pairs ≫= (fun kv => [kv.1; kv.2]).

(** ** The reservation sequence *)

(** The hash under [KEYS[1]] and the two locals the entitlement loop
    updates. *)
Record loop_state := LoopState {
  store : gmap string Qc;
  uncovered_usage : Qc;
  reserved_from_entitlements : gmap string Qc
}.

(** The state the entitlement loop starts from, lines 66-68. *)
Definition loop_init (ledger : gmap string Qc) (total_usage : Qc) : loop_state :=
  {| store := ledger; uncovered_usage := total_usage;
     reserved_from_entitlements := ∅ |}.

(** Step 2, lines 71-85.  [ledger_map] is the table filled from [HGETALL]
    before the loop; the loop reads balances from it and writes to the
    hash. *)
Fixpoint consume_entitlements (ledger_map : gmap string Qc)
    (entitlement_ids : list string) (st : loop_state) : loop_state :=
  match entitlement_ids with
  | [] => st
  | ent_id :: rest =>
      if bool_decide (uncovered_usage st <= 0) then st
      else
        let ent_balance := balance_of ledger_map (ent_key ent_id) in
        if bool_decide (0 < ent_balance) then
          let consume_from_this := Qc_min (uncovered_usage st) ent_balance in
          consume_entitlements ledger_map rest
            {| store := hincrbyfloat (ent_key ent_id) (- consume_from_this) (store st);
               uncovered_usage := uncovered_usage st - consume_from_this;
               reserved_from_entitlements :=
                 <[ent_id := consume_from_this]> (reserved_from_entitlements st) |}
        else consume_entitlements ledger_map rest st
  end.

(** The compensation loop, lines 108-110: [pairs] visits every entry of
    [reserved_from_entitlements] once. *)
Definition rollback (reserved : gmap string Qc) (ledger : gmap string Qc)
    : gmap string Qc :=
  map_fold (fun ent_id amount acc => hincrbyfloat (ent_key ent_id) amount acc)
           ledger reserved.

(** What the script has decided at one of its three [return]s, before the
    reply is rendered. *)
Inductive outcome :=
  | UnconfiguredOverage
  | InsufficientFunds (cost_from_wallet : Qc) (reserved : gmap string Qc)
  | Success (cost_from_wallet : Qc) (reserved : gmap string Qc).

(** The cost an outcome carries, if it carries one. *)
Definition outcome_cost (o : outcome) : option Qc :=
  match o with
  | UnconfiguredOverage => None
  | InsufficientFunds cost _ | Success cost _ => Some cost
  end.

Section Reserve.

Variable table_sort : (tier -> tier -> bool) -> list tier -> list tier.

(** Step 3, lines 88-100; [None] is the [return {2, ...}] of line 98. *)
Definition cost_from_wallet (uncovered : Qc) (flat_amount unit_count : Qc)
    (tiers : list tier) : option Qc :=
  if bool_decide (0 < uncovered) then
    if bool_decide (0 < length tiers)%nat then
      Some (calculate_tiered_cost table_sort uncovered tiers unit_count)
    else if bool_decide (0 < flat_amount) then
      Some ((uncovered / unit_count) * flat_amount)
    else None
  else Some 0.

(** The script from line 60 on: the hash after the call and the outcome. *)
Definition reserve_outcome (ledger : gmap string Qc) (total_usage : Qc)
    (entitlement_ids : list string) (flat_amount unit_count : Qc)
    (tiers : list tier) : gmap string Qc * outcome :=
  let ledger_map := ledger in
  let wallet_balance := balance_of ledger_map "wallet_balance" in
  let st :=
    consume_entitlements ledger_map entitlement_ids
      (loop_init ledger total_usage) in
  let reserved := reserved_from_entitlements st in
  match cost_from_wallet (uncovered_usage st) flat_amount unit_count tiers with
  | None => (store st, UnconfiguredOverage)
  | Some cost =>
      if bool_decide (0 < cost) then
        if bool_decide (cost <= wallet_balance) then
          (hincrbyfloat "wallet_balance" (- cost) (store st), Success cost reserved)
        else
          (rollback reserved (store st), InsufficientFunds cost reserved)
      else (store st, Success cost reserved)
  end.

End Reserve.

(** ** The reply *)

(** The digit [d] (0 to 9) as a character. *)
Definition digit_char (d : Z) : ascii := ascii_of_nat (48 + Z.to_nat d).

(** The [k] low decimal digits of [n], most significant first. *)
Fixpoint fixed_digits (k : nat) (n : Z) : string :=
  match k with
  | O => EmptyString
  | S k' => fixed_digits k' (n / 10) +:+ String (digit_char (n mod 10)) EmptyString
  end.

(** The integer nearest to [n / d], ties to the even one ([0 <= n], [0 < d]). *)
Definition round_half_even (n d : Z) : Z :=
  let fl := (n / d)%Z in
  let twice := (2 * (n mod d))%Z in
  if (twice <? d)%Z then fl
  else if (d <? twice)%Z then (fl + 1)%Z
  else if Z.even fl then fl else (fl + 1)%Z.

(** The number of ten-billionths in [|x|], rounded. *)
Definition scaled_10 (x : Qc) : Z :=
  round_half_even (Z.abs (Qnum x) * 10 ^ 10) (Zpos (Qden x)).

(** [string.format("%.10f", x)]: sign, integer part, point, ten digits. *)
Definition string_format_10f (x : Qc) : string :=
  (if bool_decide (x < 0) then "-" else "")
  +:+ NilZero.string_of_uint (N.to_uint (Z.to_N (scaled_10 x / 10 ^ 10)))
  +:+ "."
  +:+ fixed_digits 10 (scaled_10 x mod 10 ^ 10).

(** A decimal digit. *)
Definition is_digit (c : ascii) : bool :=
  (48 <=? nat_of_ascii c)%nat && (nat_of_ascii c <=? 57)%nat.

Fixpoint all_digits (s : string) : bool :=
  match s with
  | EmptyString => true
  | String c s' => is_digit c && all_digits s'
  end.

(** A decimal rendering with exactly ten fractional digits: an optional
    minus sign, at least one digit, the point, ten digits. *)
Definition ten_fraction_digits (s : string) : Prop :=
  exists sign int_part frac_part,
    s = sign +:+ int_part +:+ "." +:+ frac_part
    /\ (sign = "" \/ sign = "-")
    /\ int_part <> "" /\ all_digits int_part = true
    /\ all_digits frac_part = true /\ String.length frac_part = 10%nat.

(** The array the script returns: two elements on line 98, four on lines
    111 and 116.  The JSON text of [cjson.encode] is kept as the table it
    encodes. *)
Inductive reply :=
  | Reply2 (status : Z) (message : string)
  | Reply4 (status : Z) (message : string) (cost_charged : string)
           (entitlement_consumption : gmap string Qc).

Definition render (o : outcome) : reply :=
  match o with
  | UnconfiguredOverage =>
      Reply2 2 "Entitlements depleted and no pay-as-you-go price is configured for this feature."
  | InsufficientFunds cost reserved =>
      Reply4 1 "Insufficient wallet balance..." (string_format_10f cost) reserved
  | Success cost reserved =>
      Reply4 3 "Success" (string_format_10f cost) reserved
  end.

(** The whole script: the hash after the call and the returned array. *)
Definition reserve_feature
    (table_sort : (tier -> tier -> bool) -> list tier -> list tier)
    (ledger : gmap string Qc) (total_usage : Qc)
    (entitlement_ids : list string) (flat_amount unit_count : Qc)
    (tiers : list tier) : gmap string Qc * reply :=
  let r := reserve_outcome table_sort ledger total_usage entitlement_ids
             flat_amount unit_count tiers in
  (r.1, render r.2).

(** The sum of the amounts in a consumption table. *)
Definition consumed_total (reserved : gmap string Qc) : Qc :=
  map_fold (fun _ amount acc => amount + acc) 0 reserved.

(** What the entitlement loop keeps true of its state as long as it has met
    no id twice: every recorded amount is positive, within the snapshot
    balance, and taken once from the field; every other field is as in the
    snapshot; the uncovered usage is the total less the recorded amounts. *)
Definition loop_inv (ledger : gmap string Qc) (total_usage : Qc)
    (st : loop_state) : Prop :=
  (forall id c, reserved_from_entitlements st !! id = Some c ->
     0 < c /\ c <= balance_of ledger (ent_key id)
     /\ ledger !! ent_key id = Some (balance_of ledger (ent_key id))
     /\ store st !! ent_key id = Some (balance_of ledger (ent_key id) - c))
  /\ (forall k, (forall id c, reserved_from_entitlements st !! id = Some c ->
                   k <> ent_key id) ->
        store st !! k = ledger !! k)
  /\ uncovered_usage st = total_usage - consumed_total (reserved_from_entitlements st).

(** Every stored amount is non-negative. *)
Definition amounts_nonneg (ledger : gmap string Qc) : Prop :=
  map_Forall (fun _ v => 0 <= v) ledger.

(** A ledger holding 100 units of entitlement [e1] and the given wallet. *)
Definition e1_ledger (wallet : Qc) : gmap string Qc :=
  <["entitlement:e1" := Q2Qc 100]> (<["wallet_balance" := wallet]> ∅).

Definition c1_tiers : list tier :=
  [ Tier (Some (Q2Qc 1000)) (Q2Qc (1 # 100)); Tier None (Q2Qc (8 # 1000)) ].

(** * Properties *)

(** ** Arithmetic on [Qc] *)

Lemma Qc_this_plus (x y : Qc) : (this (x + y) == this x + this y)%Q.
Proof. unfold Qcplus, Q2Qc; simpl. apply Qred_correct. Qed.

Lemma Qc_this_opp (x : Qc) : (this (- x) == - this x)%Q.
Proof. unfold Qcopp, Q2Qc; simpl. apply Qred_correct. Qed.

Lemma Qc_this_minus (x y : Qc) : (this (x - y) == this x - this y)%Q.
Proof. unfold Qcminus. rewrite Qc_this_plus, Qc_this_opp. reflexivity. Qed.

(** Linear goals over [Qc], by way of [Q]. *)
Ltac qc_lra :=
  unfold Qcle, Qclt in *;
  repeat match goal with
  | H : context [this (_ + _)] |- _ => rewrite Qc_this_plus in H
  | H : context [this (_ - _)] |- _ => rewrite Qc_this_minus in H
  | H : context [this (- _)] |- _ => rewrite Qc_this_opp in H
  | |- context [this (_ + _)] => rewrite Qc_this_plus
  | |- context [this (_ - _)] => rewrite Qc_this_minus
  | |- context [this (- _)] => rewrite Qc_this_opp
  end;
  change (this 0) with 0%Q in *;
  lra.

Lemma charge_mono (a b k r : Qc) :
  a <= b -> 0 < k -> 0 <= r -> a / k * r <= b / k * r.
Proof.
  intros Hab Hk Hr. apply Qcmult_le_compat_r; [|exact Hr].
  unfold Qcdiv. apply Qcmult_le_compat_r; [exact Hab|].
  apply Qclt_le_weak, Qcinv_pos, Hk.
Qed.

Lemma charge_nonneg (a k r : Qc) :
  0 <= a -> 0 < k -> 0 <= r -> 0 <= a / k * r.
Proof.
  intros Ha Hk Hr. replace 0 with (0 / k * r) by (unfold Qcdiv; ring).
  by apply charge_mono.
Qed.

Lemma Qc_min_l (x y : Qc) : Qc_min x y <= x.
Proof. unfold Qc_min. case_bool_decide; qc_lra. Qed.

Lemma Qc_min_r (x y : Qc) : Qc_min x y <= y.
Proof. unfold Qc_min. case_bool_decide; qc_lra. Qed.

Lemma Qc_min_pos (x y : Qc) : 0 < x -> 0 < y -> 0 < Qc_min x y.
Proof. unfold Qc_min. intros. case_bool_decide; qc_lra. Qed.

Lemma Qc_min_cases (x y : Qc) :
  (y < x /\ Qc_min x y = y) \/ (x <= y /\ Qc_min x y = x).
Proof.
  unfold Qc_min. case_bool_decide; [left|right]; split; auto.
  apply Qcnot_lt_le. done.
Qed.

(** ** [math.min] and the bounds *)

(** With a finite first argument [math.min] is finite or [NegInf]. *)
Lemma math_min_fin (x : Qc) (d : number) :
  match d with
  | Fin w => math_min (Fin x) d = Fin (Qc_min x w)
  | NegInf => math_min (Fin x) d = NegInf
  | PosInf | NaN => math_min (Fin x) d = Fin x
  end.
Proof.
  destruct d; try reflexivity.
  unfold math_min, Qc_min; simpl. by case_bool_decide.
Qed.

(** ** The walk *)

Section Walk.

Variable unit_count : Qc.

Lemma tier_walk_cons (t : tier) (rest : list tier) (st : walk_state) :
  tier_walk unit_count (t :: rest) st =
    if bool_decide (remaining_usage st <= 0) then st
    else tier_walk unit_count rest (walk_turn unit_count st t).
Proof.
  simpl. case_bool_decide; [done|]. f_equal. unfold walk_turn.
  pose proof (math_min_fin (remaining_usage st)
                (num_sub (tier_up_to t) (previous_up_to st))) as Hm.
  destruct (num_sub (tier_up_to t) (previous_up_to st)); rewrite Hm; simpl;
    try case_bool_decide; done.
Qed.

Lemma tier_walk_done (l : list tier) (st : walk_state) :
  remaining_usage st <= 0 -> tier_walk unit_count l st = st.
Proof.
  intros H. destruct l as [|t l]; [done|].
  rewrite tier_walk_cons. by rewrite bool_decide_eq_true_2.
Qed.

Lemma tier_walk_app (l1 l2 : list tier) (st : walk_state) :
  tier_walk unit_count (l1 ++ l2) st =
    tier_walk unit_count l2 (tier_walk unit_count l1 st).
Proof.
  revert st. induction l1 as [|t l1 IH]; intros st; [done|].
  rewrite <- app_comm_cons, !tier_walk_cons.
  case_bool_decide; [|apply IH].
  by rewrite tier_walk_done.
Qed.

End Walk.

(** ** Sorting *)

Section InsertionSort.

Context {A : Type} (lt : A -> A -> bool).
Hypothesis lt_asym : forall a b, lt a b = true -> lt b a = false.
Hypothesis lt_negtrans :
  forall a b c, lt a b = false -> lt b c = false -> lt a c = false.

Lemma insert_sorted_perm (x : A) (l : list A) :
  Permutation (insert_sorted lt x l) (x :: l).
Proof.
  induction l as [|y l IH]; simpl; [done|].
  destruct (lt y x); [|done].
  rewrite IH. apply perm_swap.
Qed.

Lemma insertion_sort_perm (l : list A) : Permutation (insertion_sort lt l) l.
Proof.
  induction l as [|x l IH]; simpl; [done|].
  rewrite insert_sorted_perm. by constructor.
Qed.

Lemma insert_sorted_sorted (x : A) (l : list A) :
  StronglySorted (fun a b => lt b a = false) l ->
  StronglySorted (fun a b => lt b a = false) (insert_sorted lt x l).
Proof.
  induction 1 as [|y l Hl IH Hy]; simpl.
  - repeat constructor.
  - destruct (lt y x) eqn:Hyx.
    + constructor; [exact IH|].
      rewrite (insert_sorted_perm x l). constructor; [|exact Hy].
      by apply lt_asym.
    + constructor; [by constructor|].
      constructor; [exact Hyx|].
      eapply List.Forall_impl; [|exact Hy]. simpl. intros z Hz.
      by apply (lt_negtrans z y x).
Qed.

Lemma insertion_sort_sorted (l : list A) :
  StronglySorted (fun a b => lt b a = false) (insertion_sort lt l).
Proof.
  induction l as [|x l IH]; simpl; [constructor|].
  by apply insert_sorted_sorted.
Qed.

End InsertionSort.

Lemma tier_before_asym (a b : tier) :
  tier_before a b = true -> tier_before b a = false.
Proof.
  unfold tier_before, tier_up_to.
  destruct (up_to a), (up_to b); simpl; try done.
  rewrite bool_decide_eq_true, bool_decide_eq_false. intros. qc_lra.
Qed.

Lemma tier_before_negtrans (a b c : tier) :
  tier_before a b = false -> tier_before b c = false -> tier_before a c = false.
Proof.
  unfold tier_before, tier_up_to.
  destruct (up_to a), (up_to b), (up_to c); simpl; try done.
  rewrite !bool_decide_eq_false. intros. qc_lra.
Qed.

Lemma insertion_sort_sorts : sorts_with tier_before (@insertion_sort tier).
Proof.
  intros l. split.
  - apply insertion_sort_perm.
  - apply insertion_sort_sorted;
      [apply tier_before_asym | apply tier_before_negtrans].
Qed.

Section Sorted.

Variable table_sort : (tier -> tier -> bool) -> list tier -> list tier.
Hypothesis table_sort_ok : sorts_with tier_before table_sort.

Lemma table_sort_perm (l : list tier) : Permutation (table_sort tier_before l) l.
Proof. apply table_sort_ok. Qed.

Lemma table_sort_nil : table_sort tier_before [] = [].
Proof. apply Permutation_nil. symmetry. apply table_sort_perm. Qed.

Lemma table_sort_length (l : list tier) :
  length (table_sort tier_before l) = length l.
Proof. apply Permutation_length, table_sort_perm. Qed.

Lemma table_sort_Forall (P : tier -> Prop) (l : list tier) :
  Forall P l -> Forall P (table_sort tier_before l).
Proof. intros H. by rewrite table_sort_perm. Qed.

(** A finite tier and an unbounded one come out in that order. *)
Lemma table_sort_two (b r1 r2 : Qc) :
  table_sort tier_before [Tier (Some b) r1; Tier None r2]
  = [Tier (Some b) r1; Tier None r2].
Proof.
  destruct (table_sort_ok [Tier (Some b) r1; Tier None r2]) as [Hp Hs].
  destruct (table_sort tier_before [Tier (Some b) r1; Tier None r2])
    as [|x [|y [|z l]]] eqn:E.
  - apply Permutation_length in Hp. done.
  - apply Permutation_length in Hp. done.
  - apply Permutation_length_2 in Hp as [[-> ->]|[-> ->]]; [done|].
    inversion Hs as [|? ? _ Hall]; subst.
    inversion Hall as [|? ? Hbad _]; subst. done.
  - apply Permutation_length in Hp. done.
Qed.

End Sorted.

(** ** The code walks as the specification says *)

Section Refinement.

Variable unit_count : Qc.

Lemma spec_walk_done (l : list tier) (sst : spec_state) :
  spec_remaining_usage sst <= 0 ->
  fold_left (spec_step unit_count) l sst = sst.
Proof.
  intros H. induction l as [|t l IH]; simpl; [done|].
  unfold spec_step at 2. by rewrite bool_decide_eq_true_2.
Qed.

(** The two walks agree on the remaining usage and on the cost, from any
    pair of states that agree on them and, while usage remains, on a finite
    previous bound. *)
Lemma tier_walk_refines (l : list tier) (st : walk_state) (sst : spec_state) :
  remaining_usage st = spec_remaining_usage sst ->
  total_cost st = spec_cost sst ->
  (remaining_usage st <= 0 \/
   exists p, previous_up_to st = Fin p /\ spec_previous_bound sst = Some p) ->
  remaining_usage (tier_walk unit_count l st)
    = spec_remaining_usage (fold_left (spec_step unit_count) l sst)
  /\ total_cost (tier_walk unit_count l st)
    = spec_cost (fold_left (spec_step unit_count) l sst).
Proof.
  revert st sst. induction l as [|t l IH]; intros st sst Hr Hc Hp; [done|].
  rewrite tier_walk_cons. simpl fold_left.
  case_bool_decide as Hdone.
  - rewrite spec_walk_done.
    + unfold spec_step. rewrite bool_decide_eq_true_2 by (by rewrite <- Hr). done.
    + unfold spec_step. rewrite bool_decide_eq_true_2 by (by rewrite <- Hr).
      by rewrite <- Hr.
  - destruct Hp as [Hp|(p & Hp & Hsp)]; [done|].
    apply IH; unfold walk_turn, spec_step;
      rewrite <- Hr, <- Hc, Hp, Hsp, (bool_decide_eq_false_2 _ Hdone);
      unfold tier_up_to; destruct (up_to t) as [b|]; simpl;
      repeat case_bool_decide; simpl; try done; try qc_lra.
    all: right; by exists b.
Qed.

End Refinement.

Lemma lookup_last_amount (l : list tier) :
  l <> [] ->
  exists t, l !! (length l - 1)%nat = Some t
            /\ List.last (map amount l) 0 = amount t.
Proof.
  induction l as [|x [|y l] IH]; intros Hne; [done| |].
  - by exists x.
  - destruct IH as (t & Ht & Hl); [done|]. exists t. split; [|exact Hl].
    simpl in *. by rewrite Nat.sub_0_r in Ht.
Qed.

(** C1. The calculator is the algorithm of section 4.2: for every usage
    amount >= 0, tier list and unit_count > 0, it sorts the tiers ascending
    by upper bound with absent bounds last, then walks them with
    [previous_bound] from 0 and [remaining_usage] from the usage, taking
    [slice = min(remaining_usage, upper_bound - previous_bound)] per tier,
    charging [(slice / unit_count) * rate] when the slice is positive and
    stopping once nothing remains ([spec_tiered_cost]).  For usage 1500,
    tiers [{1000, 0.01}, {null, 0.008}] and unit_count 1 the cost is 14. *)
Theorem tiered_cost_follows_spec
    (table_sort : (tier -> tier -> bool) -> list tier -> list tier)
    (usage : Qc) (tiers : list tier) (unit_count : Qc) :
  sorts_with tier_before table_sort ->
  0 <= usage -> 0 < unit_count ->
  calculate_tiered_cost table_sort usage tiers unit_count
    = spec_tiered_cost table_sort usage tiers unit_count
  /\ calculate_tiered_cost table_sort (Q2Qc 1500) c1_tiers 1 = Q2Qc 14.
Proof.
  intros Hsort _ _. split.
  - unfold calculate_tiered_cost, spec_tiered_cost.
    destruct tiers as [|t0 tiers'].
    { rewrite (table_sort_nil _ Hsort). simpl.
      by rewrite andb_false_r. }
    set (sorted := table_sort tier_before (t0 :: tiers')).
    assert (Hne : sorted <> []).
    { intros E. pose proof (table_sort_length _ Hsort (t0 :: tiers')) as Hl.
      fold sorted in Hl. rewrite E in Hl. done. }
    destruct (tier_walk_refines unit_count sorted (walk_init usage)
                {| spec_previous_bound := Some 0; spec_remaining_usage := usage;
                   spec_cost := 0 |}) as [Hr Hc]; [done|done| |].
    { right. by exists 0. }
    unfold spec_walk. rewrite <- Hr, <- Hc.
    destruct (lookup_last_amount sorted Hne) as (t & Ht & Hl).
    rewrite Ht, Hl.
    rewrite (bool_decide_eq_true_2 (0 < length sorted)%nat), andb_true_r; [done|].
    destruct sorted; [done|simpl; lia].
  - unfold calculate_tiered_cost, c1_tiers.
    rewrite (table_sort_two _ Hsort). by vm_compute.
Qed.

Lemma tiered_cost_follows_spec_witness :
  calculate_tiered_cost insertion_sort (Q2Qc 1500) c1_tiers 1
    = spec_tiered_cost insertion_sort (Q2Qc 1500) c1_tiers 1
  /\ calculate_tiered_cost insertion_sort (Q2Qc 1500) c1_tiers 1 = Q2Qc 14.
Proof.
  apply (tiered_cost_follows_spec insertion_sort (Q2Qc 1500) c1_tiers 1).
  - exact insertion_sort_sorts.
  - by vm_compute.
  - by vm_compute.
Defined.

(** ** The fallback and the last tier *)

Section Fallback.

Variable unit_count : Qc.

Lemma list_last_split {A} (l : list A) :
  l <> [] -> exists front x, l = front ++ [x].
Proof.
  intros Hne. destruct (list.last_is_Some l) as [_ H].
  destruct (H Hne) as [x Hx]. apply list.last_Some in Hx as [front ->].
  by exists front, x.
Qed.

(** On a non-empty sorted list the calculator returns the walk's cost plus
    the fallback at the last tier's rate. *)
Lemma calculate_tiered_cost_snoc
    (table_sort : (tier -> tier -> bool) -> list tier -> list tier)
    (usage : Qc) (tiers front : list tier) (last_tier : tier) :
  table_sort tier_before tiers = front ++ [last_tier] ->
  calculate_tiered_cost table_sort usage tiers unit_count
    = fallback_total unit_count (amount last_tier)
        (tier_walk unit_count (front ++ [last_tier]) (walk_init usage)).
Proof.
  intros E. unfold calculate_tiered_cost, fallback_total. rewrite E.
  rewrite length_app. simpl length.
  replace (length front + 1 - 1)%nat with (length front) by lia.
  rewrite list_lookup_middle by done.
  rewrite (bool_decide_eq_true_2 (0 < length front + 1)%nat) by lia.
  by rewrite andb_true_r.
Qed.

(** Usage is left over only when every tier walked has a finite bound. *)
Lemma tier_walk_leftover_finite (l : list tier) (st : walk_state) :
  (exists p, previous_up_to st = Fin p) ->
  0 < remaining_usage (tier_walk unit_count l st) ->
  Forall (fun t => is_Some (up_to t)) l.
Proof.
  revert st. induction l as [|t l IH]; intros st [p Hp] Hleft; [constructor|].
  rewrite tier_walk_cons in Hleft. case_bool_decide as Hdone; [qc_lra|].
  destruct (up_to t) as [b|] eqn:Eb.
  - constructor; [by rewrite Eb|].
    apply (IH (walk_turn unit_count st t)); [|done].
    exists b. unfold walk_turn, tier_up_to. rewrite Hp, Eb. simpl.
    by case_bool_decide.
  - exfalso. revert Hleft. unfold walk_turn, tier_up_to. rewrite Hp, Eb. simpl.
    rewrite bool_decide_eq_true_2 by (by apply Qcnot_le_lt).
    rewrite tier_walk_done; simpl; intros; qc_lra.
Qed.

End Fallback.

(** C5. For every usage amount, non-empty tier list and unit_count > 0: if
    usage is left after the walk over all sorted tiers, then the last sorted
    tier has a finite upper bound, and the calculator returns (as an ordinary
    cost) the cost of the walk plus [(remaining_usage / unit_count)] times
    the last sorted tier's rate. *)
Theorem last_tier_fallback
    (table_sort : (tier -> tier -> bool) -> list tier -> list tier)
    (usage : Qc) (tiers : list tier) (unit_count : Qc) :
  sorts_with tier_before table_sort ->
  tiers <> [] -> 0 < unit_count ->
  let st := tier_walk unit_count (table_sort tier_before tiers) (walk_init usage) in
  0 < remaining_usage st ->
  exists front last_tier bound,
    table_sort tier_before tiers = front ++ [last_tier]
    /\ up_to last_tier = Some bound
    /\ calculate_tiered_cost table_sort usage tiers unit_count
       = total_cost st + (remaining_usage st / unit_count) * amount last_tier.
Proof.
  intros Hsort Hne _ st Hleft.
  destruct (list_last_split (table_sort tier_before tiers)) as (front & lt & E).
  { intros E. pose proof (table_sort_length _ Hsort tiers) as Hl.
    rewrite E in Hl. destruct tiers; done. }
  pose proof (tier_walk_leftover_finite unit_count _ (walk_init usage)
                (ex_intro _ 0 eq_refl) Hleft) as Hfin.
  rewrite E in Hfin. apply Forall_app in Hfin as [_ Hfin].
  inversion Hfin as [|? ? [b Hb] _]; subst.
  exists front, lt, b. split; [done|]. split; [done|].
  rewrite (calculate_tiered_cost_snoc unit_count _ _ _ _ _ E).
  unfold fallback_total. subst st. rewrite <- E.
  by rewrite bool_decide_eq_true_2.
Qed.

Lemma last_tier_fallback_witness :
  exists front last_tier bound,
    insertion_sort tier_before capped_tiers = front ++ [last_tier]
    /\ up_to last_tier = Some bound
    /\ calculate_tiered_cost insertion_sort (Q2Qc 1500) capped_tiers 1
       = total_cost (tier_walk 1 (insertion_sort tier_before capped_tiers)
                       (walk_init (Q2Qc 1500)))
         + (remaining_usage (tier_walk 1 (insertion_sort tier_before capped_tiers)
                               (walk_init (Q2Qc 1500))) / 1)
           * amount last_tier.
Proof.
  apply (last_tier_fallback insertion_sort (Q2Qc 1500) capped_tiers 1).
  - exact insertion_sort_sorts.
  - discriminate.
  - by vm_compute.
  - by vm_compute.
Defined.

(** ** Monotonicity of the cost *)

Section Monotone.

Variable unit_count : Qc.
Hypothesis unit_count_pos : 0 < unit_count.

Lemma Qc_min_mono (x1 x2 w : Qc) :
  x1 <= x2 ->
  Qc_min x1 w <= Qc_min x2 w /\ x1 - Qc_min x1 w <= x2 - Qc_min x2 w.
Proof.
  intros H.
  destruct (Qc_min_cases x1 w) as [[? ->]|[? ->]],
           (Qc_min_cases x2 w) as [[? ->]|[? ->]]; split; qc_lra.
Qed.

(** A turn of the loop keeps two runs ordered. *)
Lemma walk_turn_mono (st1 st2 : walk_state) (t : tier) :
  previous_up_to st1 = previous_up_to st2 ->
  0 < remaining_usage st1 ->
  remaining_usage st1 <= remaining_usage st2 ->
  total_cost st1 <= total_cost st2 ->
  0 <= amount t ->
  previous_up_to (walk_turn unit_count st1 t)
    = previous_up_to (walk_turn unit_count st2 t)
  /\ remaining_usage (walk_turn unit_count st1 t)
     <= remaining_usage (walk_turn unit_count st2 t)
  /\ total_cost (walk_turn unit_count st1 t)
     <= total_cost (walk_turn unit_count st2 t).
Proof.
  intros Hp Hpos Hr Hc Ha. unfold walk_turn. rewrite Hp.
  destruct (num_sub (tier_up_to t) (previous_up_to st2)) as [w| | |].
  - destruct (Qc_min_mono _ _ w Hr) as [Hm Hd].
    assert (Hw : 0 < Qc_min (remaining_usage st2) w ->
                 0 < Qc_min (remaining_usage st1) w).
    { intros H2. apply Qc_min_pos; [done|].
      pose proof (Qc_min_r (remaining_usage st2) w). qc_lra. }
    repeat case_bool_decide; simpl; (split; [done|]); split; try done.
    + apply Qcplus_le_compat; [done|]. by apply charge_mono.
    + qc_lra.
    + qc_lra.
    + exfalso. auto.
    + exfalso. auto.
  - rewrite !bool_decide_eq_true_2 by qc_lra. simpl.
    split; [done|]. split; [qc_lra|].
    apply Qcplus_le_compat; [done|]. by apply charge_mono.
  - simpl. done.
  - rewrite !bool_decide_eq_true_2 by qc_lra. simpl.
    split; [done|]. split; [qc_lra|].
    apply Qcplus_le_compat; [done|]. by apply charge_mono.
Qed.

(** With non-negative rates a turn does not lower the cost. *)
Lemma walk_turn_cost_le (st : walk_state) (t : tier) :
  0 < remaining_usage st -> 0 <= amount t ->
  total_cost st <= total_cost (walk_turn unit_count st t).
Proof.
  intros Hpos Ha.
  assert (Hch : forall u, 0 <= u ->
            total_cost st <= total_cost st + u / unit_count * amount t).
  { intros u Hu. pose proof (charge_nonneg u unit_count (amount t) Hu
      unit_count_pos Ha). qc_lra. }
  unfold walk_turn.
  destruct (num_sub (tier_up_to t) (previous_up_to st));
    repeat case_bool_decide; simpl; try apply Hch; qc_lra.
Qed.

Lemma fallback_total_ge (last_rate : Qc) (l : list tier) (st : walk_state) :
  0 <= last_rate ->
  Forall (fun t => 0 <= amount t) l ->
  total_cost st <= fallback_total unit_count last_rate (tier_walk unit_count l st).
Proof.
  intros Hr Hl. revert st. induction Hl as [|t l Ht Hl IH]; intros st.
  - simpl. unfold fallback_total. case_bool_decide; [|qc_lra].
    pose proof (charge_nonneg (remaining_usage st) unit_count last_rate).
    assert (0 <= remaining_usage st) by qc_lra. 
    assert (0 <= remaining_usage st / unit_count * last_rate) by auto.
    qc_lra.
  - rewrite tier_walk_cons. case_bool_decide as Hdone.
    + unfold fallback_total. rewrite bool_decide_eq_false_2 by qc_lra. qc_lra.
    + apply Qcle_trans with (total_cost (walk_turn unit_count st t)); [|apply IH].
      apply walk_turn_cost_le; [qc_lra|done].
Qed.

(** More usage, from the same previous bound, never costs less. *)
Lemma tier_walk_mono (last_rate : Qc) (l : list tier) (st1 st2 : walk_state) :
  0 <= last_rate ->
  Forall (fun t => 0 <= amount t) l ->
  previous_up_to st1 = previous_up_to st2 ->
  remaining_usage st1 <= remaining_usage st2 ->
  total_cost st1 <= total_cost st2 ->
  fallback_total unit_count last_rate (tier_walk unit_count l st1)
  <= fallback_total unit_count last_rate (tier_walk unit_count l st2).
Proof.
  intros Hr Hl. revert st1 st2.
  induction Hl as [|t l Ht Hl IH]; intros st1 st2 Hp Hrem Hc.
  - simpl. unfold fallback_total. repeat case_bool_decide.
    + apply Qcplus_le_compat; [done|]. by apply charge_mono.
    + qc_lra.
    + pose proof (charge_nonneg (remaining_usage st2) unit_count last_rate).
      assert (0 <= remaining_usage st2) by qc_lra.
      assert (0 <= remaining_usage st2 / unit_count * last_rate) by auto.
      qc_lra.
    + done.
  - rewrite (tier_walk_cons _ t l st1). case_bool_decide as Hdone1.
    + unfold fallback_total at 1. rewrite bool_decide_eq_false_2 by qc_lra.
      apply Qcle_trans with (total_cost st2); [done|].
      apply fallback_total_ge; [done|by constructor].
    + rewrite tier_walk_cons. rewrite bool_decide_eq_false_2 by qc_lra.
      destruct (walk_turn_mono st1 st2 t) as (? & ? & ?); try done; [qc_lra|].
      by apply IH.
Qed.

End Monotone.

(** C6, as the code has it.  For a fixed tier schedule whose rates are all
    non-negative and a fixed unit_count > 0, the tiered cost is
    non-decreasing in usage. *)
Theorem tiered_cost_monotone
    (table_sort : (tier -> tier -> bool) -> list tier -> list tier)
    (tiers : list tier) (unit_count u1 u2 : Qc) :
  sorts_with tier_before table_sort ->
  Forall (fun t => 0 <= amount t) tiers ->
  0 < unit_count ->
  u1 <= u2 ->
  calculate_tiered_cost table_sort u1 tiers unit_count
  <= calculate_tiered_cost table_sort u2 tiers unit_count.
Proof.
  intros Hsort Hrates Hunit Hle.
  pose proof (table_sort_Forall _ Hsort _ _ Hrates) as Hsorted.
  destruct (table_sort tier_before tiers) as [|t0 l0] eqn:E.
  - unfold calculate_tiered_cost. rewrite E. simpl. rewrite !andb_false_r. done.
  - destruct (list_last_split (t0 :: l0)) as (front & lt & E'); [done|].
    rewrite E' in E, Hsorted.
    rewrite !(calculate_tiered_cost_snoc unit_count _ _ _ _ _ E).
    apply tier_walk_mono; try done.
    apply Forall_app in Hsorted as [_ Hlast]. by inversion Hlast.
Qed.

Lemma tiered_cost_monotone_witness :
  calculate_tiered_cost insertion_sort (Q2Qc 500) c1_tiers 1
  <= calculate_tiered_cost insertion_sort (Q2Qc 1500) c1_tiers 1.
Proof.
  apply (tiered_cost_monotone insertion_sort c1_tiers 1 (Q2Qc 500) (Q2Qc 1500)).
  - exact insertion_sort_sorts.
  - repeat constructor; by vm_compute.
  - by vm_compute.
  - by vm_compute.
Defined.

(** C6 as stated fails on a schedule with a negative rate: one unbounded
    tier at rate -1 costs 0 for usage 0 and -1 for usage 1. *)
Lemma tiered_cost_monotone_counterexample :
  (0 : Qc) <= 1 /\ (0 : Qc) < 1 /\
  ~ (calculate_tiered_cost insertion_sort 0 rebate_tiers 1
     <= calculate_tiered_cost insertion_sort 1 rebate_tiers 1).
Proof. split; [by vm_compute|]. split; [by vm_compute|]. by vm_compute. Qed.

(** ** Usage that ends on a tier boundary *)

Section Boundary.

Variable unit_count : Qc.

(** While walking towards the bound [b], what remains never exceeds the
    distance from the previous bound to [b]. *)
Lemma tier_walk_towards (b : Qc) (l : list tier) (st : walk_state) :
  (remaining_usage st <= 0 \/
   exists p, previous_up_to st = Fin p /\ remaining_usage st <= b - p) ->
  remaining_usage (tier_walk unit_count l st) <= 0 \/
  exists p, previous_up_to (tier_walk unit_count l st) = Fin p
            /\ remaining_usage (tier_walk unit_count l st) <= b - p.
Proof.
  revert st. induction l as [|t l IH]; intros st Hinv; [done|].
  rewrite tier_walk_cons. case_bool_decide as Hdone; [by left|].
  destruct Hinv as [?|(p & Hp & Hle)]; [done|].
  apply IH. unfold walk_turn, tier_up_to. rewrite Hp.
  destruct (up_to t) as [b'|]; simpl.
  - destruct (Qc_min_cases (remaining_usage st) (b' - p)) as [[? E]|[? E]];
      rewrite E; case_bool_decide; simpl.
    + right. exists b'. split; [done|qc_lra].
    + right. exists b'. split; [done|qc_lra].
    + left. qc_lra.
    + qc_lra.
  - case_bool_decide; simpl; [left|]; qc_lra.
Qed.

(** The walk never leaves a negative remainder behind a non-negative one. *)
Lemma tier_walk_remaining_nonneg (l : list tier) (st : walk_state) :
  0 <= remaining_usage st -> 0 <= remaining_usage (tier_walk unit_count l st).
Proof.
  revert st. induction l as [|t l IH]; intros st Hpos; [done|].
  rewrite tier_walk_cons. case_bool_decide; [done|].
  apply IH. unfold walk_turn.
  destruct (num_sub (tier_up_to t) (previous_up_to st)) as [w| | |];
    repeat case_bool_decide; simpl; try qc_lra.
  pose proof (Qc_min_l (remaining_usage st) w). qc_lra.
Qed.

End Boundary.

(** In exact arithmetic, usage equal to the upper bound of a tier is used up
    by the walk through that tier: nothing remains after it, so the cost of
    the whole schedule is the cost accumulated in that tier and the tiers
    sorted before it, and no tier sorted after it (nor the fallback) is
    charged. *)
Theorem tier_boundary_exact
    (table_sort : (tier -> tier -> bool) -> list tier -> list tier)
    (tiers lower upper : list tier) (t : tier) (bound unit_count : Qc) :
  0 < unit_count ->
  table_sort tier_before tiers = lower ++ t :: upper ->
  up_to t = Some bound ->
  let st := tier_walk unit_count (lower ++ [t]) (walk_init bound) in
  remaining_usage st <= 0
  /\ (0 <= bound -> remaining_usage st = 0)
  /\ tier_walk unit_count (lower ++ t :: upper) (walk_init bound) = st
  /\ calculate_tiered_cost table_sort bound tiers unit_count = total_cost st.
Proof.
  intros _ E Hb st.
  assert (Hst : remaining_usage st <= 0).
  { subst st. rewrite tier_walk_app.
    set (s := tier_walk unit_count lower (walk_init bound)).
    destruct (tier_walk_towards unit_count bound lower (walk_init bound))
      as [Hd|(p & Hp & Hle)].
    { right. exists 0. split; [done|]. simpl. qc_lra. }
    - fold s in Hd. by rewrite tier_walk_done.
    - fold s in Hp, Hle. rewrite tier_walk_cons. case_bool_decide; [done|].
      simpl. unfold walk_turn, tier_up_to. rewrite Hp, Hb. simpl.
      destruct (Qc_min_cases (remaining_usage s) (bound - p)) as [[? E']|[? E']];
        rewrite E'; case_bool_decide; simpl; qc_lra. }
  assert (Hzero : 0 <= bound -> remaining_usage st = 0).
  { intros Hpos. apply Qcle_antisym; [done|].
    by apply tier_walk_remaining_nonneg. }
  assert (Hall : tier_walk unit_count (lower ++ t :: upper) (walk_init bound) = st).
  { replace (lower ++ t :: upper) with ((lower ++ [t]) ++ upper)
      by (by rewrite <- app_assoc).
    rewrite tier_walk_app. by apply tier_walk_done. }
  split; [done|]. split; [done|]. split; [done|].
  unfold calculate_tiered_cost. rewrite E, Hall.
  by rewrite bool_decide_eq_false_2 by qc_lra.
Qed.

Lemma tier_boundary_exact_witness :
  let st := tier_walk 1 ([] ++ [Tier (Some (Q2Qc 1000)) (Q2Qc (1 # 100))])
              (walk_init (Q2Qc 1000)) in
  remaining_usage st <= 0
  /\ (0 <= Q2Qc 1000 -> remaining_usage st = 0)
  /\ tier_walk 1 ([] ++ Tier (Some (Q2Qc 1000)) (Q2Qc (1 # 100))
                        :: [Tier None (Q2Qc (8 # 1000))])
       (walk_init (Q2Qc 1000)) = st
  /\ calculate_tiered_cost insertion_sort (Q2Qc 1000) c1_tiers 1 = total_cost st.
Proof.
  apply (tier_boundary_exact insertion_sort c1_tiers []
           [Tier None (Q2Qc (8 # 1000))]
           (Tier (Some (Q2Qc 1000)) (Q2Qc (1 # 100))) (Q2Qc 1000) 1).
  - by vm_compute.
  - by vm_compute.
  - reflexivity.
Defined.

(** The binary64 calculator gives 14 on the 1500-unit scenario, and an
    infinite cost when the unit count is 0. *)
Lemma calculate_tiered_cost64_samples :
  calculate_tiered_cost64 insertion_sort 1500%float c1_tiers64 1%float = 14%float
  /\ calculate_tiered_cost64 insertion_sort 1%float c1_tiers64 0%float = infinity.
Proof. by vm_compute. Qed.

(** C7 on binary64 numbers, as the script computes.  The tiers are bounded at
    0.1, 0.2 and 0.4 (rate 1) and followed by an unbounded tier (rate
    1000000000); the unit count is 1 and the usage is 0.4, the bound of the
    third tier.  The walk through the three bounded tiers charges 0.4 and
    leaves 2^-55 of the usage (0.4 - 0.1 - 0.1 - 0.2 in floating point), and
    the calculator charges that remainder at the rate of the unbounded tier:
    the cost is above what the tiers up to the bound charge. *)
Theorem tier_boundary_spills_binary64 :
  let st := tier_walk64 1%float decimal_tiers_lower (walk_init64 decimal_usage) in
  let cost :=
    calculate_tiered_cost64 insertion_sort decimal_usage decimal_tiers 1%float in
  insertion_sort tier_before64 decimal_tiers
    = decimal_tiers_lower ++ [Tier64 None 1000000000%float]
  /\ list.last decimal_tiers_lower = Some (Tier64 (Some decimal_usage) 1%float)
  /\ remaining_usage64 st = 0x1p-55%float
  /\ total_cost64 st = decimal_usage
  /\ cost = (total_cost64 st + (0x1p-55 / 1) * 1000000000)%float
  /\ PrimFloat.ltb (total_cost64 st) cost = true.
Proof. by vm_compute. Qed.

(** ** The reply *)

Lemma string_app_cons (c : ascii) (s1 s2 : string) :
  String c s1 +:+ s2 = String c (s1 +:+ s2).
Proof. reflexivity. Qed.

Lemma all_digits_app (s1 s2 : string) :
  all_digits (s1 +:+ s2) = all_digits s1 && all_digits s2.
Proof.
  induction s1 as [|c s1 IH]; [done|].
  rewrite string_app_cons. simpl. rewrite IH. by rewrite andb_assoc.
Qed.

Lemma string_length_app (s1 s2 : string) :
  String.length (s1 +:+ s2) = (String.length s1 + String.length s2)%nat.
Proof.
  induction s1 as [|c s1 IH]; [done|].
  rewrite string_app_cons. simpl. by rewrite IH.
Qed.

Lemma digit_char_is_digit (d : Z) :
  (0 <= d < 10)%Z -> is_digit (digit_char d) = true.
Proof.
  intros H.
  assert (d = 0 \/ d = 1 \/ d = 2 \/ d = 3 \/ d = 4 \/ d = 5 \/ d = 6 \/ d = 7
          \/ d = 8 \/ d = 9)%Z as Hd by lia.
  repeat (destruct Hd as [->|Hd]; [reflexivity|]). by subst.
Qed.

Lemma fixed_digits_all_digits (k : nat) (n : Z) :
  all_digits (fixed_digits k n) = true.
Proof.
  revert n. induction k as [|k IH]; intros n; [done|].
  change (fixed_digits (S k) n)
    with (fixed_digits k (n / 10) +:+ String (digit_char (n mod 10)) EmptyString).
  rewrite all_digits_app, IH.
  change (all_digits (String (digit_char (n mod 10)) EmptyString))
    with (is_digit (digit_char (n mod 10)) && true).
  rewrite digit_char_is_digit; [done|]. apply Z.mod_pos_bound. lia.
Qed.

Lemma fixed_digits_length (k : nat) (n : Z) :
  String.length (fixed_digits k n) = k.
Proof.
  revert n. induction k as [|k IH]; intros n; [done|].
  change (fixed_digits (S k) n)
    with (fixed_digits k (n / 10) +:+ String (digit_char (n mod 10)) EmptyString).
  rewrite string_length_app, IH.
  change (String.length (String (digit_char (n mod 10)) EmptyString)) with 1%nat.
  lia.
Qed.

Lemma string_of_uint_all_digits (u : Decimal.uint) :
  u <> Decimal.Nil -> all_digits (NilEmpty.string_of_uint u) = true.
Proof.
  induction u as [|u IH|u IH|u IH|u IH|u IH|u IH|u IH|u IH|u IH|u IH];
    intros _; [done|..]; simpl;
    (destruct u; [reflexivity|apply IH; discriminate..]).
Qed.

Lemma nilzero_all_digits (u : Decimal.uint) :
  all_digits (NilZero.string_of_uint u) = true
  /\ NilZero.string_of_uint u <> "".
Proof.
  unfold NilZero.string_of_uint. destruct u; try done;
    (split; [by apply string_of_uint_all_digits|done]).
Qed.

(** [string.format("%.10f", x)] always has ten fractional digits. *)
Lemma string_format_10f_shape (x : Qc) : ten_fraction_digits (string_format_10f x).
Proof.
  unfold ten_fraction_digits, string_format_10f.
  eexists _, _, _. split; [reflexivity|].
  split; [case_bool_decide; auto|].
  destruct (nilzero_all_digits (N.to_uint (Z.to_N (scaled_10 x / 10 ^ 10)))) as [? ?].
  split; [done|]. split; [done|].
  split; [apply fixed_digits_all_digits|apply fixed_digits_length].
Qed.

(** ** The ledger *)

Lemma balance_of_hincrbyfloat (k : string) (d : Qc) (m : gmap string Qc) :
  balance_of (hincrbyfloat k d m) k = balance_of m k + d.
Proof. unfold balance_of, hincrbyfloat. by rewrite lookup_insert_eq. Qed.

Lemma balance_of_hincrbyfloat_ne (k k' : string) (d : Qc) (m : gmap string Qc) :
  k <> k' -> balance_of (hincrbyfloat k d m) k' = balance_of m k'.
Proof. intros. unfold balance_of, hincrbyfloat. by rewrite lookup_insert_ne. Qed.

Lemma lookup_hincrbyfloat (k : string) (d : Qc) (m : gmap string Qc) :
  hincrbyfloat k d m !! k = Some (balance_of m k + d).
Proof. unfold balance_of, hincrbyfloat. by rewrite lookup_insert_eq. Qed.

Lemma lookup_hincrbyfloat_ne (k k' : string) (d : Qc) (m : gmap string Qc) :
  k <> k' -> hincrbyfloat k d m !! k' = m !! k'.
Proof. intros. unfold hincrbyfloat. by rewrite lookup_insert_ne. Qed.

Lemma ent_key_inj (a b : string) : ent_key a = ent_key b -> a = b.
Proof. unfold ent_key. apply String.app_inj. Qed.

Lemma ent_key_not_wallet (a : string) : ent_key a <> "wallet_balance"%string.
Proof. unfold ent_key. discriminate. Qed.

(** ** The entitlement loop *)

Section Loop.

Variable ledger_map : gmap string Qc.

(** One turn of the loop past its [break] test. *)
Lemma consume_entitlements_cons (ent_id : string) (rest : list string)
    (st : loop_state) :
  0 < uncovered_usage st ->
  consume_entitlements ledger_map (ent_id :: rest) st =
    consume_entitlements ledger_map rest
      (if bool_decide (0 < balance_of ledger_map (ent_key ent_id)) then
         {| store := hincrbyfloat (ent_key ent_id)
              (- Qc_min (uncovered_usage st) (balance_of ledger_map (ent_key ent_id)))
              (store st);
            uncovered_usage := uncovered_usage st
              - Qc_min (uncovered_usage st) (balance_of ledger_map (ent_key ent_id));
            reserved_from_entitlements :=
              <[ent_id := Qc_min (uncovered_usage st)
                            (balance_of ledger_map (ent_key ent_id))]>
                (reserved_from_entitlements st) |}
       else st).
Proof.
  intros H. simpl. rewrite bool_decide_eq_false_2 by qc_lra.
  by case_bool_decide.
Qed.

Lemma consume_entitlements_done (l : list string) (st : loop_state) :
  uncovered_usage st <= 0 -> consume_entitlements ledger_map l st = st.
Proof. intros H. destruct l; [done|]. simpl. by rewrite bool_decide_eq_true_2. Qed.

Lemma consume_entitlements_app (l1 l2 : list string) (st : loop_state) :
  consume_entitlements ledger_map (l1 ++ l2) st =
    consume_entitlements ledger_map l2 (consume_entitlements ledger_map l1 st).
Proof.
  revert st. induction l1 as [|x l1 IH]; intros st; [done|].
  simpl. case_bool_decide; [by rewrite consume_entitlements_done|].
  case_bool_decide; apply IH.
Qed.

(** The loop only lowers the uncovered usage and the stored balances. *)
Lemma consume_entitlements_le (l : list string) (st : loop_state) :
  uncovered_usage (consume_entitlements ledger_map l st) <= uncovered_usage st
  /\ forall k, balance_of (store (consume_entitlements ledger_map l st)) k
               <= balance_of (store st) k.
Proof.
  revert st. induction l as [|x l IH]; intros st.
  { simpl. split; [|intros]; qc_lra. }
  simpl. case_bool_decide; [split; [|intros]; qc_lra|].
  case_bool_decide as Hb; [|apply IH].
  match goal with |- context [consume_entitlements _ l ?s] =>
    destruct (IH s) as [Hu Hs] end.
  assert (Hc : 0 < Qc_min (uncovered_usage st) (balance_of ledger_map (ent_key x))).
  { apply Qc_min_pos; [|done]. by apply Qcnot_le_lt. }
  simpl in *. split; [qc_lra|]. intros k.
  specialize (Hs k). destruct (decide (ent_key x = k)) as [<-|Hne].
  - rewrite balance_of_hincrbyfloat in Hs. qc_lra.
  - by rewrite balance_of_hincrbyfloat_ne in Hs.
Qed.

End Loop.

(** ** A repeated entitlement id *)

Section Repeated.

Variable ledger_map : gmap string Qc.
Variable ent_id : string.
Hypothesis snapshot_pos : 0 < balance_of ledger_map (ent_key ent_id).

(** If usage is still uncovered after a run of ids that holds [ent_id],
    the run took the whole snapshot balance of [ent_id] out of the hash. *)
Lemma consume_entitlements_drained (l : list string) (st : loop_state) :
  ent_id ∈ l ->
  0 < uncovered_usage (consume_entitlements ledger_map l st) ->
  balance_of (store (consume_entitlements ledger_map l st)) (ent_key ent_id)
  <= balance_of (store st) (ent_key ent_id)
     - balance_of ledger_map (ent_key ent_id).
Proof.
  revert st. induction l as [|x l IH]; intros st Hin Hleft.
  { by apply elem_of_nil in Hin. }
  assert (Hu : 0 < uncovered_usage st).
  { destruct (consume_entitlements_le ledger_map (x :: l) st) as [? _]. qc_lra. }
  rewrite consume_entitlements_cons in Hleft |- * by done.
  apply elem_of_cons in Hin as [<-|Hin].
  - rewrite bool_decide_eq_true_2 in Hleft |- * by done.
    match goal with |- context [consume_entitlements _ l ?s] =>
      destruct (consume_entitlements_le ledger_map l s) as [Hul Hsl];
      specialize (Hsl (ent_key ent_id)) end.
    simpl in *. rewrite balance_of_hincrbyfloat in Hsl.
    destruct (Qc_min_cases (uncovered_usage st)
                (balance_of ledger_map (ent_key ent_id))) as [[? E]|[? E]];
      rewrite E in *; qc_lra.
  - match goal with |- context [consume_entitlements _ l ?s] =>
      specialize (IH s Hin Hleft); set (s1 := s) in * end.
    assert (balance_of (store s1) (ent_key ent_id)
            <= balance_of (store st) (ent_key ent_id)); [|qc_lra].
    subst s1. case_bool_decide; [|qc_lra]. simpl.
    destruct (decide (ent_key x = ent_key ent_id)) as [->|Hne].
    + rewrite balance_of_hincrbyfloat.
      pose proof (Qc_min_pos (uncovered_usage st)
                    (balance_of ledger_map (ent_key ent_id)) Hu snapshot_pos).
      qc_lra.
    + rewrite balance_of_hincrbyfloat_ne by done. qc_lra.
Qed.

(** Once the recorded amount of [ent_id] lies above the stored balance by
    more than the whole snapshot, it stays so. *)
Lemma consume_entitlements_overdrawn (l : list string) (st : loop_state) :
  (exists r, reserved_from_entitlements st !! ent_id = Some r /\ 0 < r
             /\ balance_of (store st) (ent_key ent_id) <= - r) ->
  exists r,
    reserved_from_entitlements (consume_entitlements ledger_map l st) !! ent_id
      = Some r
    /\ 0 < r
    /\ balance_of (store (consume_entitlements ledger_map l st)) (ent_key ent_id)
       <= - r.
Proof.
  revert st. induction l as [|x l IH]; intros st Hinv; [done|].
  simpl. case_bool_decide as Hdone; [done|].
  case_bool_decide as Hbal; [|by apply IH].
  apply IH. simpl. destruct Hinv as (r & Hr & Hpos & Hle).
  assert (Hc : 0 < Qc_min (uncovered_usage st) (balance_of ledger_map (ent_key x))).
  { apply Qc_min_pos; [|done]. by apply Qcnot_le_lt. }
  destruct (decide (x = ent_id)) as [->|Hne].
  - eexists. rewrite lookup_insert_eq. split; [done|]. split; [done|].
    rewrite balance_of_hincrbyfloat. qc_lra.
  - exists r. rewrite lookup_insert_ne by done. split; [done|]. split; [done|].
    rewrite balance_of_hincrbyfloat_ne; [done|].
    intros E. by apply ent_key_inj in E.
Qed.

End Repeated.

(** C10. The loop prices every occurrence of an id against the snapshot
    [ledger_map], whatever the hash holds by then, and records the amount
    under the id, replacing an earlier record.  Hence, when [ent_id] has a
    positive snapshot balance, occurs in [before] and again right after it,
    and usage is still uncovered when the loop reaches that occurrence, the
    amount taken out of its field (snapshot balance minus stored balance
    after the loop) exceeds both the snapshot balance and the amount recorded
    in the consumption table. *)
Theorem repeated_entitlement_overdrawn
    (ledger : gmap string Qc) (total_usage : Qc)
    (before rest : list string) (ent_id : string) :
  ent_id ∈ before ->
  0 < balance_of ledger (ent_key ent_id) ->
  let mid := consume_entitlements ledger before (loop_init ledger total_usage) in
  0 < uncovered_usage mid ->
  let again :=
    {| store := hincrbyfloat (ent_key ent_id)
         (- Qc_min (uncovered_usage mid) (balance_of ledger (ent_key ent_id)))
         (store mid);
       uncovered_usage := uncovered_usage mid
         - Qc_min (uncovered_usage mid) (balance_of ledger (ent_key ent_id));
       reserved_from_entitlements :=
         <[ent_id := Qc_min (uncovered_usage mid) (balance_of ledger (ent_key ent_id))]>
           (reserved_from_entitlements mid) |} in
  let st := consume_entitlements ledger (before ++ ent_id :: rest)
              (loop_init ledger total_usage) in
  st = consume_entitlements ledger rest again
  /\ exists recorded,
       reserved_from_entitlements st !! ent_id = Some recorded
       /\ balance_of ledger (ent_key ent_id)
          < balance_of ledger (ent_key ent_id) - balance_of (store st) (ent_key ent_id)
       /\ recorded
          < balance_of ledger (ent_key ent_id) - balance_of (store st) (ent_key ent_id).
Proof.
  intros Hin Hpos mid Hleft again st.
  assert (Hst : st = consume_entitlements ledger rest again).
  { subst st. rewrite consume_entitlements_app. fold mid.
    rewrite consume_entitlements_cons by done.
    by rewrite bool_decide_eq_true_2. }
  split; [done|].
  pose proof (consume_entitlements_drained ledger ent_id Hpos before
                (loop_init ledger total_usage) Hin Hleft) as Hdrained.
  fold mid in Hdrained. simpl in Hdrained.
  pose proof (Qc_min_pos _ _ Hleft Hpos) as Hc.
  destruct (consume_entitlements_overdrawn ledger ent_id rest again)
    as (r & Hr & Hrpos & Hle).
  { eexists. subst again. simpl. rewrite lookup_insert_eq. split; [done|].
    split; [done|]. rewrite balance_of_hincrbyfloat. qc_lra. }
  rewrite <- Hst in Hr, Hle. exists r. split; [done|]. split; qc_lra.
Qed.

Lemma repeated_entitlement_overdrawn_witness :
  let ledger := e1_ledger 0 in
  let st := consume_entitlements ledger ([ "e1"%string ] ++ "e1"%string :: [])
              (loop_init ledger (Q2Qc 250)) in
  exists recorded,
    reserved_from_entitlements st !! "e1"%string = Some recorded
    /\ balance_of ledger (ent_key "e1")
       < balance_of ledger (ent_key "e1") - balance_of (store st) (ent_key "e1")
    /\ recorded
       < balance_of ledger (ent_key "e1") - balance_of (store st) (ent_key "e1").
Proof.
  intros ledger st.
  apply (repeated_entitlement_overdrawn ledger (Q2Qc 250) [ "e1"%string ] []
           "e1"%string).
  - apply list_elem_of_here.
  - by vm_compute.
  - by vm_compute.
Defined.

(** ** Pricing the uncovered usage *)

(** C3. When usage is left uncovered after the entitlement loop: with a
    non-empty tier list the cost is the tiered cost (whatever the flat
    amount); with no tiers and a positive flat amount it is
    [(uncovered / unit_count) * flat_amount]; otherwise the call returns
    UnconfiguredOverage at once and the hash is left as the loop wrote it, no
    decrement undone. *)
Theorem overage_pricing
    (table_sort : (tier -> tier -> bool) -> list tier -> list tier)
    (ledger : gmap string Qc) (total_usage : Qc) (entitlement_ids : list string)
    (flat_amount unit_count : Qc) (tiers : list tier) :
  let st := consume_entitlements ledger entitlement_ids
              (loop_init ledger total_usage) in
  let result := reserve_outcome table_sort ledger total_usage entitlement_ids
                  flat_amount unit_count tiers in
  0 < uncovered_usage st ->
  (tiers <> [] ->
     outcome_cost result.2
     = Some (calculate_tiered_cost table_sort (uncovered_usage st) tiers unit_count))
  /\ (tiers = [] -> 0 < flat_amount ->
        outcome_cost result.2
        = Some ((uncovered_usage st / unit_count) * flat_amount))
  /\ (tiers = [] -> ~ 0 < flat_amount ->
        result = (store st, UnconfiguredOverage)).
Proof.
  intros st result Hun. subst result. unfold reserve_outcome. fold st.
  unfold cost_from_wallet. rewrite (bool_decide_eq_true_2 _ Hun).
  split; [|split].
  - intros Hne. rewrite bool_decide_eq_true_2 by (destruct tiers; [done|simpl; lia]).
    repeat case_bool_decide; done.
  - intros -> Hflat. simpl. rewrite (bool_decide_eq_true_2 _ Hflat).
    repeat case_bool_decide; done.
  - intros -> Hflat. simpl. by rewrite (bool_decide_eq_false_2 _ Hflat).
Qed.

Lemma overage_pricing_witness :
  let st := consume_entitlements (e1_ledger 0) [ "e1"%string ]
              (loop_init (e1_ledger 0) (Q2Qc 250)) in
  let result := reserve_outcome insertion_sort (e1_ledger 0) (Q2Qc 250)
                  [ "e1"%string ] 0 1 [] in
  (@nil tier <> [] ->
     outcome_cost result.2
     = Some (calculate_tiered_cost insertion_sort (uncovered_usage st) [] 1))
  /\ (@nil tier = [] -> 0 < 0 ->
        outcome_cost result.2 = Some ((uncovered_usage st / 1) * 0))
  /\ (@nil tier = [] -> ~ 0 < 0 -> result = (store st, UnconfiguredOverage)).
Proof.
  apply (overage_pricing insertion_sort (e1_ledger 0) (Q2Qc 250)
           [ "e1"%string ] 0 1 []).
  by vm_compute.
Defined.

(** ** The returned array *)

(** C9, as the code has it.  Every call with a non-zero unit count (so that
    the cost is a finite number) returns a status among 1
    (InsufficientFunds), 2 (UnconfiguredOverage) and 3 (Success).  With
    status 1 or 3 the array also carries the cost, rendered with exactly ten
    fractional digits, and the consumption table of the entitlement loop;
    with status 2 it carries a message only. *)
Theorem reply_shape
    (table_sort : (tier -> tier -> bool) -> list tier -> list tier)
    (ledger : gmap string Qc) (total_usage : Qc) (entitlement_ids : list string)
    (flat_amount unit_count : Qc) (tiers : list tier) :
  unit_count <> 0 ->
  let st := consume_entitlements ledger entitlement_ids
              (loop_init ledger total_usage) in
  let result := reserve_outcome table_sort ledger total_usage entitlement_ids
                  flat_amount unit_count tiers in
  match (reserve_feature table_sort ledger total_usage entitlement_ids
           flat_amount unit_count tiers).2 with
  | Reply2 status _ => status = 2%Z /\ result.2 = UnconfiguredOverage
  | Reply4 status _ cost_charged entitlement_consumption =>
      (status = 1%Z \/ status = 3%Z)
      /\ (exists cost, outcome_cost result.2 = Some cost
                       /\ cost_charged = string_format_10f cost)
      /\ ten_fraction_digits cost_charged
      /\ entitlement_consumption = reserved_from_entitlements st
  end.
Proof.
  intros _ st result. unfold reserve_feature. fold result. simpl.
  subst result. unfold reserve_outcome. fold st.
  destruct (cost_from_wallet _ _ _ _ _) as [cost|]; [|done].
  repeat case_bool_decide; simpl;
    (split; [auto|]); (split; [by exists cost|]);
    (split; [apply string_format_10f_shape|done]).
Qed.

Lemma reply_shape_witness :
  (reserve_feature insertion_sort (e1_ledger (Q2Qc 1000)) (Q2Qc 1600)
     [ "e1"%string ] 0 1 c1_tiers).2
  = Reply4 3 "Success" "14.0000000000" {[ "e1"%string := Q2Qc 100 ]}
  /\ ten_fraction_digits "14.0000000000".
Proof.
  pose proof (reply_shape insertion_sort (e1_ledger (Q2Qc 1000)) (Q2Qc 1600)
                [ "e1"%string ] 0 1 c1_tiers) as Hshape.
  cbv zeta in Hshape.
  assert (E : (reserve_feature insertion_sort (e1_ledger (Q2Qc 1000)) (Q2Qc 1600)
                 [ "e1"%string ] 0 1 c1_tiers).2
              = Reply4 3 "Success" "14.0000000000" {[ "e1"%string := Q2Qc 100 ]})
    by (by vm_compute).
  rewrite E in Hshape. split; [exact E|].
  apply Hshape. by vm_compute.
Defined.

(** C9 as stated fails on the UnconfiguredOverage return: with one unit of
    usage, no entitlement and no price, the array has a status and a message
    and neither a cost nor a consumption table. *)
Lemma reply_shape_counterexample :
  ~ exists status message cost_charged entitlement_consumption,
      (reserve_feature insertion_sort ∅ 1 [] 0 1 []).2
      = Reply4 status message cost_charged entitlement_consumption.
Proof. intros (s & m & c & e & H). vm_compute in H. discriminate. Qed.

(** ** The loop on distinct ids *)

Lemma consumed_total_empty : consumed_total ∅ = 0.
Proof. unfold consumed_total. by rewrite map_fold_empty. Qed.

Lemma consumed_total_insert (m : gmap string Qc) (i : string) (x : Qc) :
  m !! i = None -> consumed_total (<[i := x]> m) = x + consumed_total m.
Proof.
  intros H. unfold consumed_total.
  rewrite map_fold_insert_L; [done| |done]. intros. ring.
Qed.

Lemma consumed_total_nonneg (m : gmap string Qc) :
  (forall id c, m !! id = Some c -> 0 <= c) -> 0 <= consumed_total m.
Proof.
  unfold consumed_total.
  apply (map_fold_weak_ind
           (fun r (m : gmap string Qc) =>
              (forall id c, m !! id = Some c -> 0 <= c) -> 0 <= r)).
  - intros _. qc_lra.
  - intros i x m' r Hi IH Hall.
    assert (0 <= x) by (apply (Hall i); by rewrite lookup_insert_eq).
    assert (0 <= r).
    { apply IH. intros id c Hid. apply (Hall id).
      rewrite lookup_insert_ne; [done|]. intros ->. congruence. }
    qc_lra.
Qed.

Section Distinct.

Variable ledger : gmap string Qc.
Variable total_usage : Qc.

Lemma loop_inv_init : loop_inv ledger total_usage (loop_init ledger total_usage).
Proof.
  split; [|split]; simpl.
  - intros id c H. by rewrite lookup_empty in H.
  - done.
  - rewrite consumed_total_empty. ring.
Qed.

Lemma loop_inv_step (x : string) (st : loop_state) :
  reserved_from_entitlements st !! x = None ->
  0 < uncovered_usage st ->
  0 < balance_of ledger (ent_key x) ->
  loop_inv ledger total_usage st ->
  loop_inv ledger total_usage
    {| store := hincrbyfloat (ent_key x)
         (- Qc_min (uncovered_usage st) (balance_of ledger (ent_key x))) (store st);
       uncovered_usage := uncovered_usage st
         - Qc_min (uncovered_usage st) (balance_of ledger (ent_key x));
       reserved_from_entitlements :=
         <[x := Qc_min (uncovered_usage st) (balance_of ledger (ent_key x))]>
           (reserved_from_entitlements st) |}.
Proof.
  intros Hfresh Hu Hbal (Hrec & Hrest & Hsum).
  assert (Hx : store st !! ent_key x = ledger !! ent_key x).
  { apply Hrest. intros id c Hid E. apply ent_key_inj in E. congruence. }
  assert (Hl : ledger !! ent_key x = Some (balance_of ledger (ent_key x))).
  { unfold balance_of in *. destruct (ledger !! ent_key x); [done|].
    simpl in Hbal. qc_lra. }
  split; [|split]; simpl.
  - intros id c Hid. destruct (decide (x = id)) as [->|Hne].
    + rewrite lookup_insert_eq in Hid. injection Hid as <-.
      split; [by apply Qc_min_pos|]. split; [apply Qc_min_r|]. split; [done|].
      rewrite lookup_hincrbyfloat. unfold balance_of at 1. rewrite Hx. done.
    + rewrite lookup_insert_ne in Hid by done.
      destruct (Hrec id c Hid) as (? & ? & ? & ?).
      repeat (split; [done|]).
      rewrite lookup_hincrbyfloat_ne; [done|].
      intros E. by apply ent_key_inj in E.
  - intros k Hk. rewrite lookup_hincrbyfloat_ne.
    + apply Hrest. intros id c Hid. apply (Hk id c).
      rewrite lookup_insert_ne; [done|]. intros ->. congruence.
    + intros <-. eapply Hk; [|done]. by rewrite lookup_insert_eq.
  - rewrite consumed_total_insert by done. rewrite Hsum. ring.
Qed.

Lemma loop_inv_consume (l : list string) (st : loop_state) :
  NoDup l ->
  (forall id, id ∈ l -> reserved_from_entitlements st !! id = None) ->
  loop_inv ledger total_usage st ->
  loop_inv ledger total_usage (consume_entitlements ledger l st).
Proof.
  intros Hnd. revert st. induction Hnd as [|x l Hx Hnd IH]; intros st Hfresh Hinv.
  { done. }
  simpl. case_bool_decide as Hdone; [done|].
  case_bool_decide as Hbal.
  - apply IH.
    + simpl. intros id Hid. rewrite lookup_insert_ne.
      * apply Hfresh. by right.
      * intros ->. done.
    + apply loop_inv_step; try done.
      * apply Hfresh. by left.
      * by apply Qcnot_le_lt.
  - apply IH; [|done]. intros id Hid. apply Hfresh. by right.
Qed.

Lemma loop_inv_reserve (entitlement_ids : list string) :
  NoDup entitlement_ids ->
  loop_inv ledger total_usage
    (consume_entitlements ledger entitlement_ids (loop_init ledger total_usage)).
Proof.
  intros Hnd. apply loop_inv_consume; [done| |apply loop_inv_init].
  intros id _. simpl. apply lookup_empty.
Qed.

End Distinct.

(** ** Compensation *)

(** The compensation loop adds each recorded amount to its own field and
    leaves every other field alone. *)
Lemma rollback_lookup (reserved s : gmap string Qc) :
  (forall id c, reserved !! id = Some c ->
     rollback reserved s !! ent_key id = Some (balance_of s (ent_key id) + c))
  /\ (forall k, (forall id c, reserved !! id = Some c -> k <> ent_key id) ->
        rollback reserved s !! k = s !! k).
Proof.
  unfold rollback.
  apply (map_fold_weak_ind
           (fun r (m : gmap string Qc) =>
              (forall id c, m !! id = Some c ->
                 r !! ent_key id = Some (balance_of s (ent_key id) + c))
              /\ (forall k, (forall id c, m !! id = Some c -> k <> ent_key id) ->
                    r !! k = s !! k))).
  - split; [|done]. intros id c H. by rewrite lookup_empty in H.
  - intros i x m r Hi [IH1 IH2]. split.
    + intros id c Hid. destruct (decide (i = id)) as [->|Hne].
      * rewrite lookup_insert_eq in Hid. injection Hid as <-.
        rewrite lookup_hincrbyfloat. unfold balance_of at 1.
        rewrite IH2; [done|]. intros id' c' Hid' E.
        apply ent_key_inj in E. congruence.
      * rewrite lookup_insert_ne in Hid by done.
        rewrite lookup_hincrbyfloat_ne; [by apply IH1|].
        intros E. by apply ent_key_inj in E.
    + intros k Hk. rewrite lookup_hincrbyfloat_ne.
      * apply IH2. intros id c Hid. apply (Hk id c).
        rewrite lookup_insert_ne; [done|]. intros ->. congruence.
      * intros <-. eapply Hk; [|done]. by rewrite lookup_insert_eq.
Qed.

(** Every field is the field of a recorded id, or of none. *)
Lemma recorded_field_dec (reserved : gmap string Qc) (k : string) :
  (exists id c, reserved !! id = Some c /\ k = ent_key id)
  \/ (forall id c, reserved !! id = Some c -> k <> ent_key id).
Proof.
  induction reserved as [|i x m Hi IH] using map_ind.
  - right. intros id c H. by rewrite lookup_empty in H.
  - destruct (decide (k = ent_key i)) as [->|Hne].
    { left. exists i, x. by rewrite lookup_insert_eq. }
    destruct IH as [(id & c & Hid & ->)|IH].
    + left. exists id, c. split; [|done].
      rewrite lookup_insert_ne; [done|]. intros ->. congruence.
    + right. intros id c Hid. destruct (decide (i = id)) as [->|Hne'].
      * done.
      * rewrite lookup_insert_ne in Hid by done. by apply (IH id c).
Qed.

(** After the loop on distinct ids, compensation gives the snapshot back. *)
Lemma rollback_restores (ledger : gmap string Qc) (total_usage : Qc)
    (st : loop_state) :
  loop_inv ledger total_usage st ->
  rollback (reserved_from_entitlements st) (store st) = ledger.
Proof.
  intros (Hrec & Hrest & _).
  destruct (rollback_lookup (reserved_from_entitlements st) (store st)) as [R1 R2].
  apply map_eq. intros k.
  destruct (recorded_field_dec (reserved_from_entitlements st) k)
    as [(id & c & Hid & ->)|Hk].
  - rewrite (R1 id c Hid). destruct (Hrec id c Hid) as (_ & _ & Hl & Hs).
    rewrite Hl. unfold balance_of at 1. rewrite Hs. simpl. f_equal. ring.
  - rewrite (R2 k Hk). by apply Hrest.
Qed.

(** After the loop on distinct ids, no stored amount is negative. *)
Lemma loop_inv_nonneg (ledger : gmap string Qc) (total_usage : Qc)
    (st : loop_state) :
  amounts_nonneg ledger ->
  loop_inv ledger total_usage st ->
  amounts_nonneg (store st).
Proof.
  intros Hpos (Hrec & Hrest & _) k v Hk.
  destruct (recorded_field_dec (reserved_from_entitlements st) k)
    as [(id & c & Hid & ->)|Hother].
  - destruct (Hrec id c Hid) as (_ & Hle & _ & Hs).
    rewrite Hs in Hk. injection Hk as <-. qc_lra.
  - rewrite (Hrest k Hother) in Hk. by apply (Hpos k).
Qed.

(** ** The reservation on distinct entitlement ids *)

Section ReserveDistinct.

Variable table_sort : (tier -> tier -> bool) -> list tier -> list tier.
Variable ledger : gmap string Qc.
Variable total_usage flat_amount unit_count : Qc.
Variable entitlement_ids : list string.
Variable tiers : list tier.
Hypothesis ids_distinct : NoDup entitlement_ids.

(** X18. When no id is repeated, an insufficient wallet leaves the hash
    exactly as it was read, and the outcome carries the cost and the
    consumption table that was rolled back. *)
Lemma insufficient_funds_restores_distinct (cost : Qc) :
  let st := consume_entitlements ledger entitlement_ids
              (loop_init ledger total_usage) in
  cost_from_wallet table_sort (uncovered_usage st) flat_amount unit_count tiers
    = Some cost ->
  0 < cost ->
  balance_of ledger "wallet_balance" < cost ->
  reserve_outcome table_sort ledger total_usage entitlement_ids
    flat_amount unit_count tiers
  = (ledger, InsufficientFunds cost (reserved_from_entitlements st)).
Proof.
  intros st Hcost Hpos Hlow. unfold reserve_outcome. fold st. rewrite Hcost.
  rewrite (bool_decide_eq_true_2 _ Hpos).
  rewrite bool_decide_eq_false_2 by qc_lra.
  f_equal. apply (rollback_restores ledger total_usage).
  by apply loop_inv_reserve.
Qed.

(** X19. When no id is repeated, the call keeps every stored amount
    non-negative. *)
Lemma amounts_nonneg_distinct :
  amounts_nonneg ledger ->
  amounts_nonneg
    (reserve_outcome table_sort ledger total_usage entitlement_ids
       flat_amount unit_count tiers).1.
Proof.
  intros Hpos. unfold reserve_outcome.
  set (st := consume_entitlements ledger entitlement_ids
               (loop_init ledger total_usage)).
  pose proof (loop_inv_reserve ledger total_usage entitlement_ids ids_distinct)
    as Hinv. fold st in Hinv.
  pose proof (loop_inv_nonneg ledger total_usage st Hpos Hinv) as Hst.
  destruct (cost_from_wallet _ _ _ _ _) as [cost|]; [|done].
  case_bool_decide as Hc; [|done].
  case_bool_decide as Hw; simpl.
  - intros k v Hk. destruct (decide (k = "wallet_balance"%string)) as [->|Hne].
    + rewrite lookup_hincrbyfloat in Hk. injection Hk as <-.
      destruct Hinv as (_ & Hrest & _).
      unfold balance_of at 1. rewrite Hrest.
      * fold (balance_of ledger "wallet_balance"). qc_lra.
      * intros id c _ E. symmetry in E. by apply ent_key_not_wallet in E.
    + rewrite lookup_hincrbyfloat_ne in Hk by done. by apply (Hst k).
  - by rewrite (rollback_restores ledger total_usage).
Qed.

(** In exact arithmetic: when no id is repeated and the unit count is not
    zero, a successful call has charged exactly what the pricing step gives
    for the total usage less the recorded consumption, and that consumption
    is non-negative. *)
Lemma success_consistent_distinct (cost : Qc) (reserved : gmap string Qc) :
  unit_count <> 0 ->
  (reserve_outcome table_sort ledger total_usage entitlement_ids
     flat_amount unit_count tiers).2 = Success cost reserved ->
  cost_from_wallet table_sort (total_usage - consumed_total reserved)
    flat_amount unit_count tiers = Some cost
  /\ 0 <= consumed_total reserved
  /\ cost <= cost + consumed_total reserved.
Proof.
  intros _. unfold reserve_outcome.
  set (st := consume_entitlements ledger entitlement_ids
               (loop_init ledger total_usage)).
  pose proof (loop_inv_reserve ledger total_usage entitlement_ids ids_distinct)
    as (Hrec & _ & Hsum). fold st in Hrec, Hsum.
  assert (Hnn : 0 <= consumed_total (reserved_from_entitlements st)).
  { apply consumed_total_nonneg. intros id c Hid.
    destruct (Hrec id c Hid) as [? _]. qc_lra. }
  destruct (cost_from_wallet _ _ _ _ _) as [c|] eqn:Hcost; [|done].
  rewrite Hsum in Hcost.
  repeat case_bool_decide; simpl; intros Hout; try done;
    injection Hout as <- <-; (split; [done|]); (split; [done|]); qc_lra.
Qed.

End ReserveDistinct.

(** ** Repeated ids at work *)

(** C2 at a repeated id.  With 100 units of entitlement [e1], an empty
    wallet, usage 250 at the flat rate 1 and the id list [e1, e1], the call
    returns InsufficientFunds for the cost 50 with the table [{e1: 100}], and
    the field of [e1], 100 before the call, holds 0 after it: 200 units were
    taken, 100 given back. *)
Theorem rollback_repeated_id_short :
  let r := reserve_outcome insertion_sort (e1_ledger 0) (Q2Qc 250)
             [ "e1"; "e1" ]%string 1 1 [] in
  r.2 = InsufficientFunds (Q2Qc 50) {[ "e1"%string := Q2Qc 100 ]}
  /\ e1_ledger 0 !! "entitlement:e1"%string = Some (Q2Qc 100)
  /\ r.1 !! "entitlement:e1"%string = Some (Q2Qc 0)
  /\ r.1 !! "wallet_balance"%string = e1_ledger 0 !! "wallet_balance"%string.
Proof. by vm_compute. Qed.

(** C4 at a repeated id.  With 100 units of entitlement [e1], usage 200, no
    price and the id list [e1, e1], every amount is non-negative before the
    call, the call succeeds at cost 0, and the field of [e1] holds -100 after
    it. *)
Theorem nonneg_repeated_id_broken :
  let r := reserve_outcome insertion_sort (e1_ledger 0) (Q2Qc 200)
             [ "e1"; "e1" ]%string 0 1 [] in
  amounts_nonneg (e1_ledger 0)
  /\ r.2 = Success 0 {[ "e1"%string := Q2Qc 100 ]}
  /\ r.1 !! "entitlement:e1"%string = Some (Q2Qc (-100))
  /\ ~ amounts_nonneg r.1.
Proof.
  intros r.
  assert (Hr : r.1 !! "entitlement:e1"%string = Some (Q2Qc (-100))) by by vm_compute.
  split.
  { intros k v. unfold e1_ledger.
    rewrite lookup_insert. case_decide.
    - intros [= <-]. by vm_compute.
    - rewrite lookup_insert. case_decide; [|by rewrite lookup_empty].
      intros [= <-]. by vm_compute. }
  split; [by vm_compute|]. split; [done|].
  intros H. specialize (H _ _ Hr). simpl in H.
  apply Qcle_not_lt in H. apply H. reflexivity.
Qed.

(** C8 at a repeated id.  With 100 units of entitlement [e1], a wallet of
    1000, usage 250 at the flat rate 10 and the id list [e1, e1], the call
    succeeds with cost 500 and the table [{e1: 100}]; pricing the total usage
    less the recorded consumption, 150, gives 1500, which is more than
    500 + 100. *)
Theorem success_repeated_id_underpriced :
  let r := reserve_outcome insertion_sort (e1_ledger (Q2Qc 1000)) (Q2Qc 250)
             [ "e1"; "e1" ]%string (Q2Qc 10) 1 [] in
  let reserved : gmap string Qc := {[ "e1"%string := Q2Qc 100 ]} in
  r.2 = Success (Q2Qc 500) reserved
  /\ consumed_total reserved = Q2Qc 100
  /\ cost_from_wallet insertion_sort (Q2Qc 250 - consumed_total reserved)
       (Q2Qc 10) 1 [] = Some (Q2Qc 1500)
  /\ ~ (Q2Qc 1500 <= Q2Qc 500 + consumed_total reserved).
Proof. by vm_compute. Qed.


(** * Further properties of the script *)

(** ** Edge cases of the calculator *)

Lemma walk_init_done (unit_count usage : Qc) (l : list tier) :
  usage <= 0 -> tier_walk unit_count l (walk_init usage) = walk_init usage.
Proof. intros H. by apply tier_walk_done. Qed.

(** X1. The calculator returns 0, whatever the tiers and the unit count, when
    the usage is zero or negative: the loop breaks at once and the fallback
    is not taken. *)
Theorem tiered_cost_no_usage
    (table_sort : (tier -> tier -> bool) -> list tier -> list tier)
    (usage : Qc) (tiers : list tier) (unit_count : Qc) :
  usage <= 0 ->
  calculate_tiered_cost table_sort usage tiers unit_count = 0.
Proof.
  intros H. unfold calculate_tiered_cost. rewrite walk_init_done by done.
  simpl. by rewrite bool_decide_eq_false_2 by qc_lra.
Qed.

Lemma tiered_cost_no_usage_witness :
  calculate_tiered_cost insertion_sort (Q2Qc (-3)) c1_tiers 1 = 0.
Proof.
  apply (tiered_cost_no_usage insertion_sort (Q2Qc (-3)) c1_tiers 1).
  by vm_compute.
Defined.

(** X2. With an empty tier list the calculator returns 0 for every usage:
    nothing is walked and the fallback needs a last tier. *)
Theorem tiered_cost_no_tiers
    (table_sort : (tier -> tier -> bool) -> list tier -> list tier)
    (usage unit_count : Qc) :
  sorts_with tier_before table_sort ->
  calculate_tiered_cost table_sort usage [] unit_count = 0.
Proof.
  intros Hsort. unfold calculate_tiered_cost.
  rewrite (table_sort_nil _ Hsort). simpl. by rewrite andb_false_r.
Qed.

Lemma tiered_cost_no_tiers_witness :
  calculate_tiered_cost insertion_sort (Q2Qc 1500) [] 1 = 0.
Proof.
  apply (tiered_cost_no_tiers insertion_sort (Q2Qc 1500) 1).
  exact insertion_sort_sorts.
Defined.

(** On a sorted permutation the calculator is 0 on no tiers and the walk
    with its fallback otherwise. *)
Lemma calculate_tiered_cost_cases
    (table_sort : (tier -> tier -> bool) -> list tier -> list tier)
    (usage : Qc) (tiers : list tier) (unit_count : Qc) :
  sorts_with tier_before table_sort ->
  (tiers = [] /\ calculate_tiered_cost table_sort usage tiers unit_count = 0)
  \/ exists front last_tier,
       table_sort tier_before tiers = front ++ [last_tier]
       /\ calculate_tiered_cost table_sort usage tiers unit_count
          = fallback_total unit_count (amount last_tier)
              (tier_walk unit_count (front ++ [last_tier]) (walk_init usage)).
Proof.
  intros Hsort. destruct tiers as [|t0 tiers'].
  - left. split; [done|]. unfold calculate_tiered_cost.
    rewrite (table_sort_nil _ Hsort). simpl. by rewrite andb_false_r.
  - right. destruct (list_last_split (table_sort tier_before (t0 :: tiers')))
      as (front & lt & E).
    { intros E. pose proof (table_sort_length _ Hsort (t0 :: tiers')) as Hl.
      rewrite E in Hl. done. }
    exists front, lt. split; [done|].
    by apply calculate_tiered_cost_snoc.
Qed.

(** ** The sign of the cost *)

(** X4. With non-negative rates and a positive unit count the cost is never
    negative, for any usage. *)
Theorem tiered_cost_nonneg
    (table_sort : (tier -> tier -> bool) -> list tier -> list tier)
    (usage : Qc) (tiers : list tier) (unit_count : Qc) :
  sorts_with tier_before table_sort ->
  Forall (fun t => 0 <= amount t) tiers ->
  0 < unit_count ->
  0 <= calculate_tiered_cost table_sort usage tiers unit_count.
Proof.
  intros Hsort Hrates Hk.
  destruct (calculate_tiered_cost_cases table_sort usage tiers unit_count Hsort)
    as [[_ ->]|(front & lt & E & ->)]; [qc_lra|].
  pose proof (table_sort_Forall _ Hsort _ _ Hrates) as Hsorted.
  rewrite E in Hsorted.
  change 0 with (total_cost (walk_init usage)) at 1.
  apply fallback_total_ge; try done.
  apply Forall_app in Hsorted as [_ Hlast]. by inversion Hlast.
Qed.

Lemma tiered_cost_nonneg_witness :
  0 <= calculate_tiered_cost insertion_sort (Q2Qc 1500) c1_tiers 1.
Proof.
  apply (tiered_cost_nonneg insertion_sort (Q2Qc 1500) c1_tiers 1).
  - exact insertion_sort_sorts.
  - repeat constructor; by vm_compute.
  - by vm_compute.
Defined.

(** ** The order in which the caller lists the tiers *)

Lemma tier_before_antisym (a b : tier) :
  tier_before a b = false -> tier_before b a = false ->
  tier_up_to a = tier_up_to b.
Proof.
  unfold tier_before, tier_up_to.
  destruct (up_to a), (up_to b); simpl; try done.
  rewrite !bool_decide_eq_false. intros H1 H2. f_equal.
  apply Qcle_antisym; by apply Qcnot_lt_le.
Qed.

(** Two sorted lists with the same tiers, no two of them with the same
    bound, are the same list. *)
Lemma sorted_tiers_unique (l1 l2 : list tier) :
  StronglySorted (fun a b => tier_before b a = false) l1 ->
  StronglySorted (fun a b => tier_before b a = false) l2 ->
  Permutation l1 l2 ->
  NoDup (map tier_up_to l1) ->
  l1 = l2.
Proof.
  intros Hs1. revert l2. induction Hs1 as [|x l1 Hs1 IH Hx]; intros l2 Hs2 Hp Hnd.
  { by apply Permutation_nil in Hp. }
  destruct Hs2 as [|y l2 Hs2 Hy].
  { symmetry in Hp. by apply Permutation_nil in Hp. }
  simpl in Hnd. apply list.NoDup_cons in Hnd as [Hfresh Hnd].
  assert (x = y) as <-.
  { assert (Hxin : x ∈ y :: l2) by (rewrite <- Hp; by left).
    assert (Hyin : y ∈ x :: l1) by (rewrite Hp; by left).
    apply elem_of_cons in Hxin as [?|Hxin]; [done|].
    apply elem_of_cons in Hyin as [?|Hyin]; [done|].
    exfalso. apply Hfresh.
    rewrite List.Forall_forall in Hx, Hy.
    assert (tier_up_to y = tier_up_to x) as <-.
    { apply tier_before_antisym.
      - apply Hx. by apply list_elem_of_In.
      - apply Hy. by apply list_elem_of_In. }
    apply list_elem_of_fmap. by exists y. }
  f_equal. apply IH; [done| |done]. by apply Permutation_cons_inv in Hp.
Qed.

(** X7. For a non-zero unit count, the cost does not depend on the order in
    which the caller lists the tiers, as long as no two tiers have the same
    upper bound (at most one of them unbounded): the calculator sorts them
    first. *)
Theorem tiered_cost_order_independent
    (table_sort : (tier -> tier -> bool) -> list tier -> list tier)
    (usage : Qc) (tiers tiers' : list tier) (unit_count : Qc) :
  sorts_with tier_before table_sort ->
  unit_count <> 0 ->
  Permutation tiers tiers' ->
  NoDup (map tier_up_to tiers) ->
  calculate_tiered_cost table_sort usage tiers unit_count
  = calculate_tiered_cost table_sort usage tiers' unit_count.
Proof.
  intros Hsort _ Hperm Hnd.
  assert (E : table_sort tier_before tiers = table_sort tier_before tiers').
  { destruct (Hsort tiers) as [Hp1 Hs1], (Hsort tiers') as [Hp2 Hs2].
    apply sorted_tiers_unique; try done.
    - by rewrite Hp1, Hp2.
    - by rewrite Hp1. }
  unfold calculate_tiered_cost. by rewrite E.
Qed.

Lemma tiered_cost_order_independent_witness :
  calculate_tiered_cost insertion_sort (Q2Qc 1500) c1_tiers 1
  = calculate_tiered_cost insertion_sort (Q2Qc 1500) (reverse c1_tiers) 1.
Proof.
  apply (tiered_cost_order_independent insertion_sort (Q2Qc 1500) c1_tiers
           (reverse c1_tiers) 1).
  - exact insertion_sort_sorts.
  - by vm_compute.
  - apply perm_swap.
  - apply list.NoDup_cons. split; [|apply NoDup_singleton].
    intros H. apply list_elem_of_singleton in H. discriminate H.
Defined.

(** ** Reading the hash *)

Lemma ledger_map_of_flat (pairs : list (string * string))
    (acc : gmap string string) (k : string) :
  NoDup pairs.*1 ->
  ledger_map_of (flat_reply pairs) acc !! k
  = match (list_to_map pairs : gmap string string) !! k with
    | Some v => Some v
    | None => acc !! k
    end.
Proof.
  revert acc. induction pairs as [|[f v] pairs IH]; intros acc Hnd.
  { simpl. by rewrite lookup_empty. }
  rewrite fmap_cons in Hnd. apply list.NoDup_cons in Hnd as [Hf Hnd].
  change (flat_reply ((f, v) :: pairs)) with (f :: v :: flat_reply pairs).
  change (ledger_map_of (f :: v :: flat_reply pairs) acc)
    with (ledger_map_of (flat_reply pairs) (<[f := v]> acc)).
  rewrite IH by done. simpl list_to_map.
  destruct (decide (f = k)) as [->|Hne].
  - rewrite (not_elem_of_list_to_map_1 pairs k) by done.
    by rewrite !lookup_insert_eq.
  - by rewrite !lookup_insert_ne by done.
Qed.

(** X8. Reading back the reply that lists the entries of a hash, each field
    once and in any order, gives a table with exactly the entries of the
    hash. *)
Theorem ledger_map_of_hash (hash : gmap string string)
    (pairs : list (string * string)) :
  Permutation pairs (map_to_list hash) ->
  ledger_map_of (flat_reply pairs) ∅ = hash.
Proof.
  intros Hp. apply map_eq. intros k.
  assert (Hnd : NoDup pairs.*1).
  { rewrite Hp. apply NoDup_fst_map_to_list. }
  rewrite ledger_map_of_flat by done.
  rewrite (list_to_map_proper pairs (map_to_list hash)) by done.
  rewrite list_to_map_to_list, lookup_empty. by destruct (hash !! k).
Qed.

Lemma ledger_map_of_hash_witness :
  ledger_map_of
    (flat_reply [("wallet_balance", "5"); ("entitlement:e1", "100")]%string) ∅
  = list_to_map [("wallet_balance", "5"); ("entitlement:e1", "100")]%string.
Proof.
  apply (ledger_map_of_hash
           (list_to_map [("wallet_balance", "5"); ("entitlement:e1", "100")]%string)
           [("wallet_balance", "5"); ("entitlement:e1", "100")]%string).
  symmetry. apply map_to_list_to_map.
  apply list.NoDup_cons. split; [|apply NoDup_singleton].
  intros H. apply list_elem_of_singleton in H. discriminate H.
Defined.

(** ** What the entitlement loop touches *)

Section LoopFacts.

Variable ledger_map : gmap string Qc.

(** A field that is not the field of a listed id is not written. *)
Lemma consume_entitlements_frame (l : list string) (st : loop_state) (k : string) :
  (forall id, id ∈ l -> k <> ent_key id) ->
  store (consume_entitlements ledger_map l st) !! k = store st !! k.
Proof.
  revert st. induction l as [|x l IH]; intros st Hk; [done|].
  simpl. case_bool_decide; [done|].
  assert (Hl : forall id, id ∈ l -> k <> ent_key id).
  { intros id Hid. apply Hk. by right. }
  case_bool_decide; rewrite IH by done; [|done].
  simpl. apply lookup_hincrbyfloat_ne. intros E. by apply (Hk x); [left|].
Qed.

(** The record of an id that is not listed is not written. *)
Lemma consume_entitlements_reserved_other (l : list string) (st : loop_state)
    (id : string) :
  id ∉ l ->
  reserved_from_entitlements (consume_entitlements ledger_map l st) !! id
  = reserved_from_entitlements st !! id.
Proof.
  revert st. induction l as [|x l IH]; intros st Hid; [done|].
  apply not_elem_of_cons in Hid as [Hne Hid].
  simpl. case_bool_decide; [done|].
  case_bool_decide; rewrite IH by done; [|done].
  simpl. by apply lookup_insert_ne.
Qed.

(** A record written by the loop belongs to a listed id and is positive,
    within the snapshot balance and within the usage still uncovered. *)
Lemma consume_entitlements_reserved_sound (l : list string) (st : loop_state)
    (id : string) (c : Qc) :
  reserved_from_entitlements (consume_entitlements ledger_map l st) !! id = Some c ->
  (id ∈ l /\ 0 < c /\ c <= balance_of ledger_map (ent_key id)
   /\ c <= uncovered_usage st)
  \/ reserved_from_entitlements st !! id = Some c.
Proof.
  revert st. induction l as [|x l IH]; intros st Hc; [by right|].
  simpl in Hc. case_bool_decide as Hdone; [by right|].
  case_bool_decide as Hbal.
  - pose proof (Qc_min_l (uncovered_usage st) (balance_of ledger_map (ent_key x))).
    pose proof (Qc_min_r (uncovered_usage st) (balance_of ledger_map (ent_key x))).
    assert (0 < Qc_min (uncovered_usage st) (balance_of ledger_map (ent_key x)))
      by (apply Qc_min_pos; [by apply Qcnot_le_lt|done]).
    apply IH in Hc as [(Hin & ? & ? & Hle)|Hc].
    + left. split; [by right|]. split; [done|]. split; [done|].
      simpl in Hle. qc_lra.
    + simpl in Hc. destruct (decide (x = id)) as [->|Hne].
      * rewrite lookup_insert_eq in Hc. injection Hc as <-.
        left. split; [by left|]. done.
      * rewrite lookup_insert_ne in Hc by done. by right.
  - apply IH in Hc as [(Hin & ? & ? & Hle)|Hc]; [|by right].
    left. split; [by right|]. done.
Qed.

(** The loop never covers more than what is asked. *)
Lemma consume_entitlements_uncovered_nonneg (l : list string) (st : loop_state) :
  0 <= uncovered_usage st ->
  0 <= uncovered_usage (consume_entitlements ledger_map l st).
Proof.
  revert st. induction l as [|x l IH]; intros st Hpos; [done|].
  simpl. case_bool_decide; [done|].
  case_bool_decide; apply IH; [|done].
  simpl. pose proof (Qc_min_l (uncovered_usage st) (balance_of ledger_map (ent_key x))).
  qc_lra.
Qed.

End LoopFacts.

(** X9. A request for no usage (zero or negative) succeeds at cost 0 with an
    empty consumption table and leaves the hash untouched, whatever the
    entitlements and the pricing. *)
Theorem reserve_no_usage
    (table_sort : (tier -> tier -> bool) -> list tier -> list tier)
    (ledger : gmap string Qc) (total_usage : Qc) (entitlement_ids : list string)
    (flat_amount unit_count : Qc) (tiers : list tier) :
  total_usage <= 0 ->
  reserve_feature table_sort ledger total_usage entitlement_ids
    flat_amount unit_count tiers
  = (ledger, Reply4 3 "Success" "0.0000000000" ∅).
Proof.
  intros H. unfold reserve_feature, reserve_outcome.
  rewrite consume_entitlements_done by done. simpl.
  unfold cost_from_wallet. rewrite bool_decide_eq_false_2 by qc_lra.
  by rewrite bool_decide_eq_false_2 by qc_lra.
Qed.

Lemma reserve_no_usage_witness :
  reserve_feature insertion_sort (e1_ledger 0) 0 [ "e1"%string ] 1 1 c1_tiers
  = (e1_ledger 0, Reply4 3 "Success" "0.0000000000" ∅).
Proof.
  apply (reserve_no_usage insertion_sort (e1_ledger 0) 0 [ "e1"%string ] 1 1
           c1_tiers).
  by vm_compute.
Defined.

(** X10. The call writes no field other than [wallet_balance] and the
    fields [entitlement:<id>] of the listed ids: every other field of the
    hash is the same after the call, on every path. *)
Theorem reserve_frame
    (table_sort : (tier -> tier -> bool) -> list tier -> list tier)
    (ledger : gmap string Qc) (total_usage : Qc) (entitlement_ids : list string)
    (flat_amount unit_count : Qc) (tiers : list tier) (k : string) :
  k <> "wallet_balance"%string ->
  (forall id, id ∈ entitlement_ids -> k <> ent_key id) ->
  (reserve_outcome table_sort ledger total_usage entitlement_ids
     flat_amount unit_count tiers).1 !! k = ledger !! k.
Proof.
  intros Hw Hk. unfold reserve_outcome.
  set (st := consume_entitlements ledger entitlement_ids
               (loop_init ledger total_usage)).
  assert (Hst : store st !! k = ledger !! k).
  { subst st. by rewrite consume_entitlements_frame. }
  destruct (cost_from_wallet _ _ _ _ _) as [cost|]; [|done].
  repeat case_bool_decide; simpl; try done.
  - by rewrite lookup_hincrbyfloat_ne.
  - destruct (rollback_lookup (reserved_from_entitlements st) (store st))
      as [_ R2].
    rewrite R2; [done|]. intros id c Hid. apply Hk.
    apply consume_entitlements_reserved_sound in Hid as [(? & _)|Hid]; [done|].
    simpl in Hid. by rewrite lookup_empty in Hid.
Qed.

Lemma reserve_frame_witness :
  (reserve_outcome insertion_sort (e1_ledger 0) (Q2Qc 250) [ "e2"%string ]
     1 1 []).1 !! "entitlement:e1"%string
  = e1_ledger 0 !! "entitlement:e1"%string.
Proof.
  apply (reserve_frame insertion_sort (e1_ledger 0) (Q2Qc 250) [ "e2"%string ]
           1 1 [] "entitlement:e1"%string).
  - discriminate.
  - intros id Hid. apply list_elem_of_singleton in Hid. subst id. discriminate.
Defined.

(** X11. For a non-zero unit count, the wallet is debited on one path only: a Success with a positive
    cost, which needs the snapshot wallet to cover the cost and leaves
    exactly the wallet less the cost.  A Success at no cost, an
    InsufficientFunds (returned only for a positive cost above the wallet)
    and an UnconfiguredOverage leave [wallet_balance] as it was. *)
Theorem reserve_wallet
    (table_sort : (tier -> tier -> bool) -> list tier -> list tier)
    (ledger : gmap string Qc) (total_usage : Qc) (entitlement_ids : list string)
    (flat_amount unit_count : Qc) (tiers : list tier) :
  unit_count <> 0 ->
  let r := reserve_outcome table_sort ledger total_usage entitlement_ids
             flat_amount unit_count tiers in
  let wallet := balance_of ledger "wallet_balance" in
  match r.2 with
  | Success cost _ =>
      (0 < cost /\ cost <= wallet
       /\ r.1 !! "wallet_balance"%string = Some (wallet - cost))
      \/ (cost <= 0
          /\ r.1 !! "wallet_balance"%string = ledger !! "wallet_balance"%string)
  | InsufficientFunds cost _ =>
      0 < cost /\ wallet < cost
      /\ r.1 !! "wallet_balance"%string = ledger !! "wallet_balance"%string
  | UnconfiguredOverage =>
      r.1 !! "wallet_balance"%string = ledger !! "wallet_balance"%string
  end.
Proof.
  intros _ r wallet. subst r. unfold reserve_outcome.
  set (st := consume_entitlements ledger entitlement_ids
               (loop_init ledger total_usage)).
  assert (Hst : store st !! "wallet_balance"%string
                = ledger !! "wallet_balance"%string).
  { subst st. rewrite consume_entitlements_frame; [done|].
    intros id _ E. symmetry in E. by apply ent_key_not_wallet in E. }
  destruct (cost_from_wallet _ _ _ _ _) as [cost|]; [|done].
  case_bool_decide as Hc; [case_bool_decide as Hw|]; simpl.
  - left. split; [done|]. split; [done|].
    rewrite lookup_hincrbyfloat. unfold balance_of at 1. rewrite Hst.
    fold (balance_of ledger "wallet_balance"). by fold wallet.
  - split; [done|]. split; [by apply Qcnot_le_lt|].
    destruct (rollback_lookup (reserved_from_entitlements st) (store st))
      as [_ R2].
    rewrite R2; [done|]. intros id c _ E. symmetry in E.
    by apply ent_key_not_wallet in E.
  - right. split; [by apply Qcnot_lt_le|done].
Qed.

Lemma reserve_wallet_witness :
  let paid := reserve_outcome insertion_sort (e1_ledger (Q2Qc 1000)) (Q2Qc 250)
                [ "e1"%string ] (Q2Qc 2) 1 [] in
  let short := reserve_outcome insertion_sort (e1_ledger (Q2Qc 5)) (Q2Qc 250)
                 [ "e1"%string ] (Q2Qc 2) 1 [] in
  (paid.2 = Success (Q2Qc 300) {[ "e1"%string := Q2Qc 100 ]}
   /\ Q2Qc 300 <= balance_of (e1_ledger (Q2Qc 1000)) "wallet_balance"
   /\ paid.1 !! "wallet_balance"%string
      = Some (balance_of (e1_ledger (Q2Qc 1000)) "wallet_balance" - Q2Qc 300))
  /\ (short.2 = InsufficientFunds (Q2Qc 300) {[ "e1"%string := Q2Qc 100 ]}
      /\ balance_of (e1_ledger (Q2Qc 5)) "wallet_balance" < Q2Qc 300
      /\ short.1 !! "wallet_balance"%string
         = e1_ledger (Q2Qc 5) !! "wallet_balance"%string).
Proof.
  intros paid short.
  assert (Hunit : (1 : Qc) <> 0) by (by vm_compute).
  pose proof (reserve_wallet insertion_sort (e1_ledger (Q2Qc 1000)) (Q2Qc 250)
                [ "e1"%string ] (Q2Qc 2) 1 [] Hunit) as Hpaid.
  pose proof (reserve_wallet insertion_sort (e1_ledger (Q2Qc 5)) (Q2Qc 250)
                [ "e1"%string ] (Q2Qc 2) 1 [] Hunit) as Hshort.
  cbv zeta in Hpaid, Hshort. fold paid in Hpaid. fold short in Hshort.
  assert (Ep : paid.2 = Success (Q2Qc 300) {[ "e1"%string := Q2Qc 100 ]})
    by (by vm_compute).
  assert (Es : short.2 = InsufficientFunds (Q2Qc 300) {[ "e1"%string := Q2Qc 100 ]})
    by (by vm_compute).
  rewrite Ep in Hpaid. rewrite Es in Hshort. split.
  - split; [exact Ep|].
    destruct Hpaid as [(_ & Hle & Hw)|[Hbad _]]; [by split|].
    exfalso. apply Qcle_not_lt in Hbad. apply Hbad. reflexivity.
  - split; [exact Es|]. destruct Hshort as (_ & Hlt & Hw). by split.
Defined.

Lemma tiered_cost_no_usage_zero
    (table_sort : (tier -> tier -> bool) -> list tier -> list tier)
    (tiers : list tier) (unit_count : Qc) :
  calculate_tiered_cost table_sort 0 tiers unit_count = 0.
Proof.
  unfold calculate_tiered_cost. rewrite walk_init_done by qc_lra.
  by simpl.
Qed.

(** X12. Every amount in the returned consumption table belongs to a listed
    id, is positive, and exceeds neither the snapshot balance of that id nor
    the total usage asked. *)
Theorem consumption_within_snapshot
    (table_sort : (tier -> tier -> bool) -> list tier -> list tier)
    (ledger : gmap string Qc) (total_usage : Qc) (entitlement_ids : list string)
    (flat_amount unit_count : Qc) (tiers : list tier) :
  match (reserve_outcome table_sort ledger total_usage entitlement_ids
           flat_amount unit_count tiers).2 with
  | Success _ reserved | InsufficientFunds _ reserved =>
      forall id c, reserved !! id = Some c ->
        id ∈ entitlement_ids /\ 0 < c
        /\ c <= balance_of ledger (ent_key id) /\ c <= total_usage
  | UnconfiguredOverage => True
  end.
Proof.
  unfold reserve_outcome.
  assert (H : forall id c,
    reserved_from_entitlements
      (consume_entitlements ledger entitlement_ids (loop_init ledger total_usage))
      !! id = Some c ->
    id ∈ entitlement_ids /\ 0 < c
    /\ c <= balance_of ledger (ent_key id) /\ c <= total_usage).
  { intros id c Hid.
    apply consume_entitlements_reserved_sound in Hid as [?|Hid]; [done|].
    simpl in Hid. by rewrite lookup_empty in Hid. }
  destruct (cost_from_wallet _ _ _ _ _) as [cost|]; [|done].
  repeat case_bool_decide; simpl; exact H.
Qed.

(** X13. Entitlements never raise the price.  With non-negative tier rates,
    unit_count > 0 and usage >= 0, the cost a call arrives at (charged or
    found insufficient) is at most the price of the whole usage with no
    entitlement applied. *)
Theorem entitlements_lower_cost
    (table_sort : (tier -> tier -> bool) -> list tier -> list tier)
    (ledger : gmap string Qc) (total_usage : Qc) (entitlement_ids : list string)
    (flat_amount unit_count : Qc) (tiers : list tier) (cost full_price : Qc) :
  sorts_with tier_before table_sort ->
  Forall (fun t => 0 <= amount t) tiers ->
  0 < unit_count ->
  0 <= total_usage ->
  outcome_cost (reserve_outcome table_sort ledger total_usage entitlement_ids
                  flat_amount unit_count tiers).2 = Some cost ->
  cost_from_wallet table_sort total_usage flat_amount unit_count tiers
    = Some full_price ->
  cost <= full_price.
Proof.
  intros Hsort Hrates Hk Htotal Hcost Hfull.
  set (st := consume_entitlements ledger entitlement_ids
               (loop_init ledger total_usage)).
  assert (Hpriced : cost_from_wallet table_sort (uncovered_usage st)
                      flat_amount unit_count tiers = Some cost).
  { revert Hcost. unfold reserve_outcome. fold st.
    destruct (cost_from_wallet table_sort (uncovered_usage st) flat_amount
                unit_count tiers) as [c|]; [|done].
    repeat case_bool_decide; simpl; congruence. }
  clear Hcost.
  assert (Hle : uncovered_usage st <= total_usage).
  { destruct (consume_entitlements_le ledger entitlement_ids
                (loop_init ledger total_usage)) as [H _]. exact H. }
  assert (Hmono : forall u1 u2, u1 <= u2 ->
            calculate_tiered_cost table_sort u1 tiers unit_count
            <= calculate_tiered_cost table_sort u2 tiers unit_count).
  { intros u1 u2 Hu.
    destruct (calculate_tiered_cost_cases table_sort u1 tiers unit_count Hsort)
      as [[-> ->]|(front & lt & E & ->)].
    - unfold calculate_tiered_cost. rewrite (table_sort_nil _ Hsort). simpl.
      rewrite andb_false_r. apply Qcle_refl.
    - rewrite (calculate_tiered_cost_snoc unit_count _ u2 _ _ _ E).
      pose proof (table_sort_Forall _ Hsort _ _ Hrates) as Hsorted.
      rewrite E in Hsorted.
      apply tier_walk_mono; try done.
      apply Forall_app in Hsorted as [_ Hlast]. by inversion Hlast. }
  revert Hpriced Hfull. unfold cost_from_wallet.
  case_bool_decide as Hu.
  - rewrite (bool_decide_eq_true_2 (0 < total_usage)) by qc_lra.
    repeat case_bool_decide; try done; intros [= <-] [= <-].
    + by apply Hmono.
    + apply charge_mono; [done|done|qc_lra].
  - intros [= <-]. case_bool_decide as Ht; [|intros [= <-]; qc_lra].
    repeat case_bool_decide; try done; intros [= <-].
    + rewrite <- (tiered_cost_no_usage_zero table_sort tiers unit_count).
      apply Hmono. qc_lra.
    + apply charge_nonneg; [done|done|qc_lra].
Qed.

Lemma entitlements_lower_cost_witness : Q2Qc (66 # 5) <= Q2Qc 14.
Proof.
  apply (entitlements_lower_cost insertion_sort (e1_ledger 0) (Q2Qc 1500)
           [ "e1"%string ] 0 1 c1_tiers (Q2Qc (66 # 5)) (Q2Qc 14)).
  - exact insertion_sort_sorts.
  - repeat constructor; by vm_compute.
  - by vm_compute.
  - by vm_compute.
  - by vm_compute.
  - by vm_compute.
Defined.

(** ** The order of the entitlement list *)

(** X14. Entitlements are drained in the order listed.  For pairwise
    distinct ids, if an id listed later has an amount recorded, then every id
    listed before it with a positive snapshot balance was consumed in full:
    its recorded amount is its whole snapshot balance. *)
Theorem entitlement_priority
    (ledger : gmap string Qc) (total_usage : Qc)
    (before after : list string) (a b : string) (cb : Qc) :
  NoDup (before ++ a :: after) ->
  b ∈ after ->
  0 < balance_of ledger (ent_key a) ->
  let st := consume_entitlements ledger (before ++ a :: after)
              (loop_init ledger total_usage) in
  reserved_from_entitlements st !! b = Some cb ->
  reserved_from_entitlements st !! a = Some (balance_of ledger (ent_key a)).
Proof.
  intros Hnd Hb Hbal st Hcb. subst st.
  apply list.NoDup_app in Hnd as (_ & Hdisj & Hnd).
  apply list.NoDup_cons in Hnd as [Ha _].
  assert (Hba : b <> a) by (intros ->; done).
  assert (Hbb : b ∉ before).
  { intros Hin. apply (Hdisj b Hin). by right. }
  rewrite consume_entitlements_app in Hcb |- *.
  set (st1 := consume_entitlements ledger before (loop_init ledger total_usage))
    in *.
  assert (Hb1 : reserved_from_entitlements st1 !! b = None).
  { subst st1. rewrite consume_entitlements_reserved_other by done.
    apply lookup_empty. }
  destruct (decide (uncovered_usage st1 <= 0)) as [Hdone|Hleft].
  { rewrite consume_entitlements_done in Hcb by done. congruence. }
  apply Qcnot_le_lt in Hleft.
  rewrite consume_entitlements_cons in Hcb |- * by done.
  rewrite (bool_decide_eq_true_2 _ Hbal) in Hcb |- *.
  rewrite consume_entitlements_reserved_other by done. simpl.
  rewrite lookup_insert_eq. f_equal.
  destruct (Qc_min_cases (uncovered_usage st1) (balance_of ledger (ent_key a)))
    as [[_ E]|[Hle E]]; [done|].
  exfalso. rewrite consume_entitlements_done in Hcb.
  - simpl in Hcb. rewrite lookup_insert_ne in Hcb by done. congruence.
  - simpl. rewrite E. qc_lra.
Qed.

Lemma entitlement_priority_witness :
  reserved_from_entitlements
    (consume_entitlements (<["entitlement:e2" := Q2Qc 50]> (e1_ledger 0))
       ([] ++ "e1"%string :: [ "e2"%string ])
       (loop_init (<["entitlement:e2" := Q2Qc 50]> (e1_ledger 0)) (Q2Qc 120)))
    !! "e1"%string
  = Some (balance_of (<["entitlement:e2" := Q2Qc 50]> (e1_ledger 0))
            (ent_key "e1")).
Proof.
  apply (entitlement_priority (<["entitlement:e2" := Q2Qc 50]> (e1_ledger 0))
           (Q2Qc 120) [] [ "e2"%string ] "e1"%string "e2"%string (Q2Qc 20)).
  - apply list.NoDup_cons. split; [|apply NoDup_singleton].
    intros H. apply list_elem_of_singleton in H. discriminate H.
  - apply list_elem_of_here.
  - by vm_compute.
  - by vm_compute.
Defined.

(** X15. A request that the first listed entitlement covers alone (usage
    positive and within its snapshot balance) succeeds at cost 0, whatever
    the pricing and the wallet: the usage is taken from that entitlement's
    field, recorded under its id, and nothing else is written. *)
Theorem first_entitlement_covers
    (table_sort : (tier -> tier -> bool) -> list tier -> list tier)
    (ledger : gmap string Qc) (total_usage : Qc) (ent_id : string)
    (rest : list string) (flat_amount unit_count : Qc) (tiers : list tier) :
  0 < total_usage ->
  total_usage <= balance_of ledger (ent_key ent_id) ->
  reserve_outcome table_sort ledger total_usage (ent_id :: rest)
    flat_amount unit_count tiers
  = (hincrbyfloat (ent_key ent_id) (- total_usage) ledger,
     Success 0 {[ ent_id := total_usage ]}).
Proof.
  intros Hpos Hle. unfold reserve_outcome.
  rewrite consume_entitlements_cons by done. simpl.
  rewrite bool_decide_eq_true_2 by qc_lra.
  destruct (Qc_min_cases total_usage (balance_of ledger (ent_key ent_id)))
    as [[? E]|[_ E]]; [qc_lra|]. rewrite E.
  rewrite consume_entitlements_done by (simpl; qc_lra). simpl.
  unfold cost_from_wallet. rewrite bool_decide_eq_false_2 by qc_lra.
  by rewrite bool_decide_eq_false_2 by qc_lra.
Qed.

Lemma first_entitlement_covers_witness :
  reserve_outcome insertion_sort (e1_ledger 0) (Q2Qc 30) ("e1" :: [])%string
    0 1 []
  = (hincrbyfloat (ent_key "e1") (- Q2Qc 30) (e1_ledger 0),
     Success 0 {[ "e1"%string := Q2Qc 30 ]}).
Proof.
  apply (first_entitlement_covers insertion_sort (e1_ledger 0) (Q2Qc 30)
           "e1"%string [] 0 1 []).
  - by vm_compute.
  - by vm_compute.
Defined.

(** ** Usage inside the lowest tier *)

(** X17. For a non-zero unit count, usage that fits in the lowest tier
    (positive, and within that tier's bound when it has one) is billed at
    that tier's rate alone: [(usage / unit_count) * rate]. *)
Theorem first_tier_rate
    (table_sort : (tier -> tier -> bool) -> list tier -> list tier)
    (usage : Qc) (tiers rest : list tier) (t : tier) (unit_count : Qc) :
  table_sort tier_before tiers = t :: rest ->
  unit_count <> 0 ->
  0 < usage ->
  match up_to t with Some bound => usage <= bound | None => True end ->
  calculate_tiered_cost table_sort usage tiers unit_count
  = usage / unit_count * amount t.
Proof.
  intros E _ Hpos Hfit. unfold calculate_tiered_cost. rewrite E.
  rewrite tier_walk_cons.
  rewrite (bool_decide_eq_false_2 (remaining_usage (walk_init usage) <= 0))
    by (by apply Qclt_not_le).
  assert (Hturn : walk_turn unit_count (walk_init usage) t
                  = {| remaining_usage := usage - usage;
                       total_cost := 0 + usage / unit_count * amount t;
                       previous_up_to := tier_up_to t |}).
  { unfold walk_turn, tier_up_to. simpl. destruct (up_to t) as [b|]; simpl.
    - simpl in Hfit.
      destruct (Qc_min_cases usage (b - 0)) as [[? E']|[_ E']]; [qc_lra|].
      rewrite E'. by rewrite bool_decide_eq_true_2.
    - by rewrite bool_decide_eq_true_2. }
  rewrite Hturn. rewrite tier_walk_done by (simpl; qc_lra). simpl.
  rewrite bool_decide_eq_false_2 by qc_lra. simpl. ring.
Qed.

Lemma first_tier_rate_witness :
  calculate_tiered_cost insertion_sort (Q2Qc 400) c1_tiers 1
  = Q2Qc 400 / 1 * amount (Tier (Some (Q2Qc 1000)) (Q2Qc (1 # 100))).
Proof.
  apply (first_tier_rate insertion_sort (Q2Qc 400) c1_tiers
           [Tier None (Q2Qc (8 # 1000))]
           (Tier (Some (Q2Qc 1000)) (Q2Qc (1 # 100))) 1).
  - by vm_compute.
  - by vm_compute.
  - by vm_compute.
  - by vm_compute.
Defined.

(** ** Witnesses for the reservation on distinct ids *)

Lemma insufficient_funds_restores_distinct_witness :
  reserve_outcome insertion_sort (e1_ledger (Q2Qc 5)) (Q2Qc 1600)
    [ "e1"%string ] 0 1 c1_tiers
  = (e1_ledger (Q2Qc 5),
     InsufficientFunds (Q2Qc 14)
       (reserved_from_entitlements
          (consume_entitlements (e1_ledger (Q2Qc 5)) [ "e1"%string ]
             (loop_init (e1_ledger (Q2Qc 5)) (Q2Qc 1600))))).
Proof.
  apply (insufficient_funds_restores_distinct insertion_sort
           (e1_ledger (Q2Qc 5)) (Q2Qc 1600) 0 1 [ "e1"%string ] c1_tiers).
  - apply NoDup_singleton.
  - by vm_compute.
  - by vm_compute.
  - by vm_compute.
Defined.

Lemma amounts_nonneg_distinct_witness :
  amounts_nonneg
    (reserve_outcome insertion_sort (e1_ledger (Q2Qc 20)) (Q2Qc 1600)
       [ "e1"%string ] 0 1 c1_tiers).1.
Proof.
  apply (amounts_nonneg_distinct insertion_sort (e1_ledger (Q2Qc 20))
           (Q2Qc 1600) 0 1 [ "e1"%string ] c1_tiers).
  - apply NoDup_singleton.
  - intros k v. unfold e1_ledger.
    rewrite lookup_insert. case_decide.
    + intros [= <-]. by vm_compute.
    + rewrite lookup_insert. case_decide; [|by rewrite lookup_empty].
      intros [= <-]. by vm_compute.
Defined.

